(** * Unicycle stores: a shallow embedding of [unicycle/store.py]

    The development follows the layout of the Python module: the
    subscription strategy and the [Subscription] iterator, the [Store]
    class with its reducer registry, the [reducer] decorator and the
    [combined_store] class decorator.  Mutable Python objects are
    modelled by explicit state passing: subscriptions live in a heap
    indexed by object identity, a store is a value that every method
    returns updated, and an exception is a [Raise] result that leaves
    the state as it was at the raising statement. *)

From Stdlib Require Import ZArith Lia.
From Stdlib Require OrderedTypeEx.
From stdpp Require Import list strings gmap sorting.

Set Default Proof Using "Type".
Set Warnings "-register-all".
Open Scope string_scope.
Open Scope list_scope.
Open Scope nat_scope.

(** ** Exceptions and results *)

Inductive exn : Type :=
  | TypeError (msg : string)
  | KeyError (msg : string)
  | AttributeError (msg : string)
  | IndexError (msg : string)
  | UserError (msg : string).

Inductive Result (A : Type) : Type :=
  | Ok (a : A)
  | Raise (e : exn).
Arguments Ok {A} a.
Arguments Raise {A} e.

Definition is_Ok {A} (r : Result A) : bool :=
  match r with Ok _ => true | Raise _ => false end.

(** The error monad on results: a raised exception skips the rest.
    The instances give results stdpp's [x ← r; k] notation. *)
Global Instance Result_ret : MRet Result := λ A a, Ok a.
Global Instance Result_bind : MBind Result := λ A B k r,
  match r with
  | Ok a => k a
  | Raise e => Raise e
  end.
Global Instance Result_fmap : FMap Result := λ A B f r,
  match r with
  | Ok a => Ok (f a)
  | Raise e => Raise e
  end.

(** ** The types a store is generic in

    [Store] is [Generic[StateT, ActionT]].  [ActionType] is what the
    [reducer] decorator receives (a class, or a tuple of classes) and
    [isinstance] is Python's test of an action against it.  [getattr]
    reads a named field of a state value; only [combined_store] uses
    it, on a supplied initial state. *)

Class Types : Type := {
  StateT : Type;
  ActionT : Type;
  ActionType : Type;
  isinstance : ActionT → ActionType → bool;
  getattr : StateT → string → Result StateT;
}.

(** ** [collections.deque] with an optional [maxlen] *)

Module deque.
Record t (A : Type) : Type := mk { items : list A; maxlen : option nat }.
Arguments mk {A} items maxlen.
Arguments items {A} _.
Arguments maxlen {A} _.

Section ops.
Context {A : Type}.

(** [deque(maxlen=m)] *)
Definition new (m : option nat) : t A := mk [] m.

Definition len (d : t A) : nat := length (items d).

(** [append]: the item is added on the right; a bounded deque that
    is then longer than [maxlen] drops one item from the left. *)
Definition append (d : t A) (x : A) : t A :=
  let items' := items d ++ [x] in
  match maxlen d with
  | None => mk items' None
  | Some m => mk (if decide (m < length items') then tail items' else items') (Some m)
  end.

(** [popleft]: raises [IndexError] on an empty deque. *)
Definition popleft (d : t A) : Result (A * t A) :=
  match items d with
  | [] => Raise (IndexError "pop from an empty deque")
  | x :: rest => Ok (x, mk rest (maxlen d))
  end.
End ops.
End deque.

(** ** Subscriptions *)

Inductive SubscriptionStrategy : Type := LATEST | EVERY.

Global Instance SubscriptionStrategy_eq_dec : EqDecision SubscriptionStrategy.
Proof. solve_decision. Defined.

(** A subscription object, with the coroutine of its consumer.
    [_notification_event] records whether the current [Event] has
    been set.  [awaiting] is not an attribute of the object: it
    records that a call of [__anext__] is suspended in
    [await self._notification_event.wait()], where it stays until
    that event is set. *)
Record Subscription `{Types} : Type := mkSubscription {
  _strategy : SubscriptionStrategy;
  _notification_event : bool;
  _queue : deque.t (StateT * ActionT);
  awaiting : bool;
}.

(** What resuming [__anext__] gives: the notification it returns, or
    the coroutine suspended in [wait()]. *)
Inductive Poll (A : Type) : Type :=
  | Ready (a : A)
  | Pending.
Arguments Ready {A} a.
Arguments Pending {A}.

Module Subscription.
Section methods.
Context `{Types}.

Definition __init__ (strategy : SubscriptionStrategy) : Subscription :=
  {| _strategy := strategy;
     _notification_event := false;
     _queue := deque.new (if decide (strategy = LATEST) then Some 1 else None);
     awaiting := false |}.

Definition _notify (self : Subscription) (next_state : StateT) (next_action : ActionT)
  : Subscription :=
  let notification := (next_state, next_action) in
  {| _strategy := _strategy self;
     _notification_event := true;
     _queue := deque.append (_queue self) notification;
     awaiting := awaiting self |}.

(** The [while] loop of [__anext__], from its test: with an empty
    queue the coroutine suspends in [wait()]; with a pending item the
    oldest one is popped and returned.  [wait()] is anyio's: on an
    event that is set already it is a checkpoint, which hands control
    to the scheduler too, so the coroutine suspends with the event as
    it is and the assignment after [wait()] is run when it is
    resumed. *)
Definition __anext___loop (self : Subscription) : Poll (StateT * ActionT) * Subscription :=
  let suspended :=
    (Pending,
     {| _strategy := _strategy self;
        _notification_event := _notification_event self;
        _queue := _queue self;
        awaiting := true |}) in
  if decide (deque.len (_queue self) = 0) then suspended
  else
    match deque.popleft (_queue self) with
    | Ok (notification, queue) =>
        (Ready notification,
         {| _strategy := _strategy self;
            _notification_event := _notification_event self;
            _queue := queue;
            awaiting := false |})
    | Raise _ => suspended
    end.

(** The consumer's [await sub.__anext__()], given a turn to run.
    With no call suspended this is a new call, which enters the loop.
    A call suspended in [wait()] stays there while the event is not
    set; once it is set, [wait()] returns, the event is replaced by a
    fresh one and the loop is tested again. *)
Definition __anext__ (self : Subscription) : Poll (StateT * ActionT) * Subscription :=
  if awaiting self then
    if _notification_event self then
      __anext___loop
        {| _strategy := _strategy self;
           _notification_event := false;
           _queue := _queue self;
           awaiting := false |}
    else (Pending, self)
  else __anext___loop self.

Definition pending (self : Subscription) : list (StateT * ActionT) :=
  deque.items (_queue self).
End methods.
End Subscription.

(** ** Stores

    Subscriptions are objects shared between a store (which notifies
    them) and their consumer (which reads them): they live in a heap,
    and a store's [_subscriptions] dict holds references, in insertion
    order. *)

Abbreviation SubRef := nat.
Abbreviation Heap := (list Subscription).

(** The body of a handler method: the new state, computed from
    [self.state] and the action; it may raise. *)
Definition Method `{Types} : Type := StateT → ActionT → Result StateT.

(** A store object: a plain [Store], or one whose class went through
    [combined_store], which also owns its substores and the
    [combine_states] its methods close over. *)
Inductive Store `{Types} : Type :=
  | Plain
      (state : StateT)
      (_subscriptions : list SubRef)
      (_reducers : list (ActionType * Method))
  | Combined
      (state : StateT)
      (_subscriptions : list SubRef)
      (_reducers : list (ActionType * Method))
      (combine_states : list (string * StateT) → Result StateT)
      (_substores : list (string * Store)).

(** What [inspect.getmembers] finds under a name: a value that is not
    callable, a callable without [__action_type__], or the [_wrapper]
    that [reducer action_type] made of a function. *)
Inductive Member `{Types} : Type :=
  | Attribute
  | PlainMethod
  | ReducerMethod (action_type : ActionType) (func : Method).

(** A store class: its class-level [state], if any, and the
    definitions of its body in source order; [combined_class] is a
    class decorated by [combined_store combine_states kwargs]. *)
Inductive StoreClass `{Types} : Type :=
  | plain_class
      (class_state : option StateT)
      (body : list (string * Member))
  | combined_class
      (class_state : option StateT)
      (body : list (string * Member))
      (combine_states : list (string * StateT) → Result StateT)
      (kwargs : list (string * StoreClass)).

(** The receiver of a method call: a store, or anything else. *)
Inductive Receiver `{Types} : Type :=
  | a_Store (self : Store)
  | not_a_Store.

Section attributes.
Context `{Types}.

Definition state (self : Store) : StateT :=
  match self with
  | Plain st _ _ => st
  | Combined st _ _ _ _ => st
  end.

Definition _subscriptions (self : Store) : list SubRef :=
  match self with
  | Plain _ subs _ => subs
  | Combined _ subs _ _ _ => subs
  end.

Definition _reducers (self : Store) : list (ActionType * Method) :=
  match self with
  | Plain _ _ reds => reds
  | Combined _ _ reds _ _ => reds
  end.

Definition _set_state (self : Store) (value : StateT) : Store :=
  match self with
  | Plain _ subs reds => Plain value subs reds
  | Combined _ subs reds combine subs' => Combined value subs reds combine subs'
  end.

Definition set_subscriptions (self : Store) (subs : list SubRef) : Store :=
  match self with
  | Plain st _ reds => Plain st subs reds
  | Combined st _ reds combine subs' => Combined st subs reds combine subs'
  end.

(** [d[key] = True] and [del d[key]] on a dict kept as its keys. *)
Definition dict_set (key : SubRef) (keys : list SubRef) : list SubRef :=
  if decide (key ∈ keys) then keys else keys ++ [key].

Definition dict_del (key : SubRef) (keys : list SubRef) : Result (list SubRef) :=
  if decide (key ∈ keys) then Ok (filter (λ k, k ≠ key) keys)
  else Raise (KeyError "subscription").

Definition callable (member : Member) : bool :=
  match member with
  | Attribute => false
  | PlainMethod | ReducerMethod _ _ => true
  end.

Definition __action_type__ (member : Member) : option ActionType :=
  match member with
  | ReducerMethod action_type _ => Some action_type
  | Attribute | PlainMethod => None
  end.

Definition __wrapped__ (member : Member) : option Method :=
  match member with
  | ReducerMethod _ func => Some func
  | Attribute | PlainMethod => None
  end.

(** ** The [reducer] decorator *)

(** [_wrapper], closed over [func].  [__dispatch__] is the keyword
    argument of that name as the caller passed it ([None] when it
    is absent), read for its truth value. *)
Definition _wrapper (func : Method) (self : Receiver) (action : ActionT)
    (__dispatch__ : option bool) : Result StateT :=
  let ok_to_call := default false __dispatch__ in
  match self with
  | not_a_Store => Raise (TypeError "@reducer must be applied to methods of a Store")
  | a_Store self =>
      if negb ok_to_call
      then Raise (TypeError "Do not call reducers directly; use Store.dispatch")
      else func (state self) action
  end.

Definition reducer (action_type : ActionType) (func : Method) : Member :=
  ReducerMethod action_type func.

(** ** [inspect.getmembers]

    The names of an object are those of its class, overridden by
    later definitions of the same name, and [getmembers] lists them
    with their values sorted by name.  Names compare as Python
    strings do: code point by code point, which on UTF-8 bytes is
    [String.leb]. *)
Definition name_le (x y : string * Member) : Prop := String.leb x.1 y.1 = true.

Global Instance name_le_dec x y : Decision (name_le x y).
Proof. unfold name_le. apply _. Defined.

Definition namespace (defs : list (string * Member)) : gmap string Member :=
  foldl (λ ns def, <[def.1 := def.2]> ns) ∅ defs.

Definition getmembers (defs : list (string * Member)) : list (string * Member) :=
  merge_sort name_le (map_to_list (namespace defs)).

(** The attributes every store has: the methods of [Store], and
    what [__init__] has assigned by the time it builds the
    registry.  The attributes of [object] are left out: none of them
    has an [__action_type__], so the registry does not see them. *)
Definition Store_methods : list (string * Member) :=
  [("__init__", PlainMethod); ("dispatch", PlainMethod); ("subscribe", PlainMethod);
   ("__setattr__", PlainMethod); ("_set_state", PlainMethod);
   ("_initialize_state", PlainMethod); ("_compute_state", PlainMethod)].

Definition instance_attributes : list (string * Member) :=
  [("state", Attribute); ("_subscriptions", Attribute)].

Definition class_body (cls : StoreClass) : list (string * Member) :=
  match cls with
  | plain_class _ body => body
  | combined_class _ body _ _ => body ++ [("_substores", Attribute)]
  end.

Definition members_of (cls : StoreClass) : list (string * Member) :=
  getmembers (Store_methods ++ class_body cls ++ instance_attributes).

(** The list comprehension of [Store.__init__]. *)
Definition registry (members : list (string * Member)) : list (ActionType * Method) :=
  omap (λ '(_, member),
          if callable member && bool_decide (is_Some (__action_type__ member))
          then action_type ← __action_type__ member;
               func ← __wrapped__ member;
               Some (action_type, func)
          else None)
       members.

(** [for sub in self._subscriptions.keys(): sub._notify(state, action)] *)
Definition notify_all (subs : list SubRef) (st : StateT) (action : ActionT)
    (heap : Heap) : Heap :=
  foldl (λ heap sub, alter (λ s, Subscription._notify s st action) sub heap) heap subs.
End attributes.

(** ** [combined_store]

    The two methods the decorator installs.  They call back into the
    [Store] class (to construct a substore, to dispatch into one), so
    they take those entry points as arguments; [Store.__init__] and
    [Store.dispatch] below pass themselves. *)

Module combined_store.
Section closures.
Context `{Types}.
Context (combine_states : list (string * StateT) → Result StateT).

Section _initialize_state.
Context (new : StoreClass → option StateT → Result Store).

(** [for name, substore_cls in kwargs.items(): ...], giving the
    dicts [substores] and [substates]. *)
Fixpoint for_kwargs (items : list (string * StoreClass)) (initial_state : option StateT)
  : Result (list (string * Store) * list (string * StateT)) :=
  match items with
  | [] => Ok ([], [])
  | (name, substore_cls) :: items =>
      initial_substate ←
        match initial_state with
        | Some initial_state =>
            match getattr initial_state name with
            | Ok value => Ok (Some value)
            | Raise (AttributeError e) => Raise (TypeError e)
            | Raise e => Raise e
            end
        | None => Ok None
        end;
      substore ← new substore_cls initial_substate;
      '(substores, substates) ← for_kwargs items initial_state;
      Ok ((name, substore) :: substores, (name, state substore) :: substates)
  end.

(** Returns [self._substores] and the state it sets. *)
Definition _initialize_state (kwargs : list (string * StoreClass))
    (initial_state : option StateT) : Result (list (string * Store) * StateT) :=
  '(substores, substates) ← for_kwargs kwargs initial_state;
  st ← combine_states substates;
  Ok (substores, st).
End _initialize_state.

Section _compute_state.
Context (dispatch : Store → ActionT → Heap → Result StateT * Store * Heap).

(** The dict comprehension over [self._substores.items()]. *)
Fixpoint for_substores (items : list (string * Store)) (action : ActionT) (heap : Heap)
  : Result (list (string * StateT)) * list (string * Store) * Heap :=
  match items with
  | [] => (Ok [], [], heap)
  | (name, substore) :: items =>
      let '(r, substore, heap) := dispatch substore action heap in
      match r with
      | Raise e => (Raise e, (name, substore) :: items, heap)
      | Ok st =>
          let '(r, items, heap) := for_substores items action heap in
          (substates ← r; Ok ((name, st) :: substates),
           (name, substore) :: items, heap)
      end
  end.

Definition _compute_state (self : Store) (action : ActionT) (heap : Heap)
  : Result unit * Store * Heap :=
  match self with
  | Plain _ _ _ => (Raise (AttributeError "_substores"), self, heap)
  | Combined st subs reds combine substores =>
      let '(r, substores, heap) := for_substores substores action heap in
      let self := Combined st subs reds combine substores in
      match r ≫= combine_states with
      | Ok st => (Ok (), _set_state self st, heap)
      | Raise e => (Raise e, self, heap)
      end
  end.
End _compute_state.
End closures.

(** [_decorator]: the class with the two methods replaced. *)
Definition _decorator `{Types} (combine_states : list (string * StateT) → Result StateT)
    (kwargs : list (string * StoreClass)) (cls : StoreClass) : StoreClass :=
  match cls with
  | plain_class class_state body
  | combined_class class_state body _ _ =>
      combined_class class_state body combine_states kwargs
  end.
End combined_store.

(** ** The [Store] class *)

Module Store.
Section methods.
Context `{Types}.

(** The state [self.state] reads once [_initialize_state] has
    returned: the value it set, or the class-level one.  [None]
    for [initial_state] is the [...] default. *)
Definition _initialize_state (class_state : option StateT) (initial_state : option StateT)
  : Result StateT :=
  match initial_state with
  | Some initial_state => Ok initial_state
  | None =>
      match class_state with
      | Some st => Ok st
      | None => Raise (TypeError "Initial state must be provided")
      end
  end.

(** [for action_type, reducer in self._reducers: ...] *)
Fixpoint for_reducers (reducers : list (ActionType * Method)) (self : Store)
    (action : ActionT) : Result unit * Store :=
  match reducers with
  | [] => (Ok (), self)
  | (action_type, reducer) :: reducers =>
      if isinstance action action_type then
        match _wrapper reducer (a_Store self) action (Some true) with
        | Ok st => for_reducers reducers (_set_state self st) action
        | Raise e => (Raise e, self)
        end
      else for_reducers reducers self action
  end.

Definition _compute_state (self : Store) (action : ActionT) : Result unit * Store :=
  for_reducers (_reducers self) self action.

Fixpoint __init__ (cls : StoreClass) (initial_state : option StateT) {struct cls}
  : Result Store :=
  match cls with
  | plain_class class_state _ =>
      st ← _initialize_state class_state initial_state;
      Ok (Plain st [] (registry (members_of cls)))
  | combined_class _ _ combine_states kwargs =>
      '(substores, st) ←
        combined_store._initialize_state combine_states __init__ kwargs initial_state;
      Ok (Combined st [] (registry (members_of cls)) combine_states substores)
  end.

Fixpoint dispatch (self : Store) (action : ActionT) (heap : Heap) {struct self}
  : Result StateT * Store * Heap :=
  let '(r, self, heap) :=
    match self with
    | Plain _ _ _ =>
        let '(r, self) := _compute_state self action in (r, self, heap)
    | Combined _ _ _ combine_states _ =>
        combined_store._compute_state combine_states dispatch self action heap
    end in
  match r with
  | Raise e => (Raise e, self, heap)
  | Ok _ =>
      let st := state self in
      (Ok st, self, notify_all (_subscriptions self) st action heap)
  end.

(** [subscribe] is a generator function under
    [contextlib.contextmanager].  This is its body up to the
    [yield], with the subscription it yields ... *)
Definition subscribe (self : Store) (strategy : SubscriptionStrategy) (heap : Heap)
  : SubRef * Store * Heap :=
  let sub := length heap in
  let heap := heap ++ [Subscription.__init__ strategy] in
  (sub, set_subscriptions self (dict_set sub (_subscriptions self)), heap).

(** ... and this is the statement after the [yield]. *)
Definition subscribe_resume (self : Store) (sub : SubRef) : Result unit * Store :=
  match dict_del sub (_subscriptions self) with
  | Ok subs => (Ok (), set_subscriptions self subs)
  | Raise e => (Raise e, self)
  end.
End methods.
Arguments dispatch : simpl never.
End Store.

(** ** Using a store

    The [with] statement over [subscribe], successive dispatches, and
    reads of a subscription by its consumer. *)

(** How the body of a [with] statement is left. *)
Inductive Completion (A : Type) : Type :=
  | Normal (v : A)
  | Returned (v : A)
  | Raised (e : exn).
Arguments Normal {A} v.
Arguments Returned {A} v.
Arguments Raised {A} e.

Section usage.
Context `{Types}.

(** [with self.subscribe(strategy) as sub: body].  Entering runs
    the generator to its [yield].  Leaving the body without an
    exception resumes the generator, which runs the statement after
    the [yield].  Leaving it with an exception throws the exception
    into the generator at the [yield]: the [yield] of [subscribe] is
    not inside a [try], so the exception leaves the generator there
    and the [with] statement re-raises it. *)
Definition with_subscribe {A} (self : Store) (strategy : SubscriptionStrategy)
    (body : SubRef → Store → Heap → Completion A * Store * Heap) (heap : Heap)
  : Completion A * Store * Heap :=
  let '(sub, self, heap) := Store.subscribe self strategy heap in
  let '(c, self, heap) := body sub self heap in
  match c with
  | Raised e => (Raised e, self, heap)
  | Normal _ | Returned _ =>
      match Store.subscribe_resume self sub with
      | (Ok _, self) => (c, self, heap)
      | (Raise e, self) => (Raised e, self, heap)
      end
  end.

(** [self.dispatch(a)] for each [a] in turn, up to the first one
    that raises; the states returned, in order. *)
Fixpoint dispatch_all (self : Store) (actions : list ActionT) (heap : Heap)
  : Result (list StateT) * Store * Heap :=
  match actions with
  | [] => (Ok [], self, heap)
  | action :: actions =>
      let '(r, self, heap) := Store.dispatch self action heap in
      match r with
      | Raise e => (Raise e, self, heap)
      | Ok st =>
          let '(r, self, heap) := dispatch_all self actions heap in
          (sts ← r; Ok (st :: sts), self, heap)
      end
  end.

(** [await sub.__anext__()] as far as it runs without a dispatch in
    between. *)
Definition read (sub : SubRef) (heap : Heap) : Poll (StateT * ActionT) * Heap :=
  match heap !! sub with
  | Some s => let '(p, s) := Subscription.__anext__ s in (p, <[sub := s]> heap)
  | None => (Pending, heap)
  end.

Fixpoint read_n (n : nat) (sub : SubRef) (heap : Heap)
  : list (Poll (StateT * ActionT)) * Heap :=
  match n with
  | 0 => ([], heap)
  | S n =>
      let '(p, heap) := read sub heap in
      let '(ps, heap) := read_n n sub heap in
      (p :: ps, heap)
  end.

Definition pending_of (sub : SubRef) (heap : Heap) : option (list (StateT * ActionT)) :=
  Subscription.pending <$> heap !! sub.
End usage.

(** ** The stores of the test suite *)

Module Tests.
Inductive value : Type :=
  | Int (z : Z)
  | CombinedState (counter mirror : value)
  | _WrongState (counter foo : value).

Inductive action : Type := Increment | Decrement.

Global Instance action_eq_dec : EqDecision action.
Proof. solve_decision. Defined.

(** An action type is a class or a tuple of classes; the actions
    have no subclasses. *)
Definition value_getattr (v : value) (name : string) : Result value :=
  match v with
  | CombinedState counter mirror =>
      if decide (name = "counter") then Ok counter
      else if decide (name = "mirror") then Ok mirror
      else Raise (AttributeError name)
  | _WrongState counter foo =>
      if decide (name = "counter") then Ok counter
      else if decide (name = "foo") then Ok foo
      else Raise (AttributeError name)
  | Int _ => Raise (AttributeError name)
  end.

Global Instance types : Types := {|
  StateT := value;
  ActionT := action;
  ActionType := list action;
  isinstance a classes := bool_decide (a ∈ classes);
  getattr := value_getattr;
|}.

Definition add (n : Z) : Method := λ st _,
  match st with
  | Int z => Ok (Int (z + n))
  | _ => Raise (TypeError "unsupported operand")
  end.

Definition CounterStore : StoreClass :=
  plain_class (Some (Int 0))
    [("increment", reducer [Increment] (add 1));
     ("decrement", reducer [Decrement] (add (-1)))].

Definition MirrorStore : StoreClass :=
  plain_class (Some (Int 0))
    [("increment", reducer [Increment] (add (-1)));
     ("decrement", reducer [Decrement] (add 1))].

(** The named tuple's constructor, called with the substates as
    keyword arguments. *)
Definition CombinedState_new (substates : list (string * value)) : Result value :=
  match substates with
  | [(n1, v1); (n2, v2)] =>
      if decide (n1 = "counter" ∧ n2 = "mirror") then Ok (CombinedState v1 v2)
      else if decide (n1 = "mirror" ∧ n2 = "counter") then Ok (CombinedState v2 v1)
      else Raise (TypeError "unexpected keyword argument")
  | _ => Raise (TypeError "missing or unexpected keyword argument")
  end.

Definition CombinedStore : StoreClass :=
  combined_store._decorator CombinedState_new
    [("counter", CounterStore); ("mirror", MirrorStore)]
    (plain_class None []).

Definition NoInitialStateStore : StoreClass := plain_class None [].

Definition DoubleCounter : StoreClass :=
  plain_class (Some (Int 0))
    [("increment", reducer [Increment] (add 1));
     ("increment_again", reducer [Increment] (add 1))].

Definition ActionCounter : StoreClass :=
  plain_class (Some (Int 0))
    [("increment", reducer [Increment; Decrement] (add 1))].

(** The objects the constructors give: [CounterStore()],
    [MirrorStore()] and [CombinedStore()]. *)
Definition counter : Store :=
  Plain (Int 0) [] [([Decrement], add (-1)); ([Increment], add 1)].

Definition mirror : Store :=
  Plain (Int 0) [] [([Decrement], add 1); ([Increment], add (-1))].

Definition combined : Store :=
  Combined (CombinedState (Int 0) (Int 0)) [] [] CombinedState_new
    [("counter", counter); ("mirror", mirror)].

(** A handler that raises, and a store whose second handler for
    [Increment] is that one. *)
Definition boom : Method := λ _ _, Raise (UserError "boom").

Definition FailingCounter : StoreClass :=
  plain_class (Some (Int 0))
    [("increment", reducer [Increment] (add 1));
     ("increment_then_fail", reducer [Increment] boom)].

(** A [with] body that raises, one that returns early, and one that
    runs to its end. *)
Definition raising_body (_ : SubRef) (self : Store) (heap : Heap)
  : Completion unit * Store * Heap :=
  (Raised (UserError "boom"), self, heap).

Definition returning_body (_ : SubRef) (self : Store) (heap : Heap)
  : Completion unit * Store * Heap :=
  (Returned (), self, heap).

Definition normal_body (_ : SubRef) (self : Store) (heap : Heap)
  : Completion unit * Store * Heap :=
  (Normal (), self, heap).
End Tests.


(** ** Specifications

    What the theorems below compare the code with. *)

Section specification.
Context `{Types}.

(** One step of the left fold over the registry: an entry that
    matches the action replaces the working state with its result. *)
Definition reduce (action : ActionT) (acc : Result StateT) (entry : ActionType * Method)
  : Result StateT :=
  st ← acc; if isinstance action entry.1 then entry.2 st action else Ok st.

Definition fold_reducers (reducers : list (ActionType * Method)) (st : StateT)
    (action : ActionT) : Result StateT :=
  foldl (reduce action) (Ok st) reducers.

Definition fold_actions (reducers : list (ActionType * Method)) (st : StateT)
    (actions : list ActionT) : Result StateT :=
  foldl (λ acc action, st ← acc; fold_reducers reducers st action) (Ok st) actions.

(** The subscriptions of the substores of a store, at any depth, and
    all the subscriptions of a tree of stores. *)
Fixpoint substore_refs (self : Store) : list SubRef :=
  match self with
  | Plain _ _ _ => []
  | Combined _ _ _ _ substores =>
      flat_map (λ item, _subscriptions item.2 ++ substore_refs item.2) substores
  end.

Definition all_refs (self : Store) : list SubRef :=
  _subscriptions self ++ substore_refs self.

(** Each substore in turn, in the order of the dict, is dispatched
    the same action and returns normally; the heap one dispatch
    leaves is the heap the next one starts from. *)
Inductive forwarded (action : ActionT)
  : Heap → list (string * Store) → list (string * Store) → Heap → Prop :=
  | forwarded_nil heap : forwarded action heap [] [] heap
  | forwarded_cons heap name substore st substore' heap1 items items' heap2 :
      Store.dispatch substore action heap = (Ok st, substore', heap1) →
      forwarded action heap1 items items' heap2 →
      forwarded action heap ((name, substore) :: items) ((name, substore') :: items') heap2.

(** The heap after a log of notifications [(sub, state)] of one
    action, delivered in order. *)
Definition deliver (action : ActionT) (heap : Heap) (log : list (SubRef * StateT)) : Heap :=
  foldl (λ heap n, alter (λ s, Subscription._notify s n.2 action) n.1 heap) heap log.

(** [self._compute_state(action)], by the class of [self]. *)
Definition compute_state (self : Store) (action : ActionT) (heap : Heap)
  : Result unit * Store * Heap :=
  match self with
  | Plain _ _ _ =>
      let '(r, self) := Store._compute_state self action in (r, self, heap)
  | Combined _ _ _ combine_states _ =>
      combined_store._compute_state combine_states Store.dispatch self action heap
  end.

(** What a dispatch into [self] does to the heap: it delivers
    notifications to subscriptions of the substores, then, when it
    returns, one to each subscription of [self] with the state it
    returns, which is the state it leaves. *)
Definition dispatch_logged (self : Store) : Prop :=
  ∀ action heap r self' heap',
    Store.dispatch self action heap = (r, self', heap') →
    _subscriptions self' = _subscriptions self ∧
    substore_refs self' = substore_refs self ∧
    match r with Ok st => st = state self' | Raise _ => True end ∧
    ∃ log,
      Forall (λ n, n.1 ∈ substore_refs self) log ∧
      heap' = deliver action heap
        (log ++ match r with
                | Ok st => (λ sub, (sub, st)) <$> _subscriptions self
                | Raise _ => []
                end).

(** What can happen to a store and the heap, one step at a time: a
    dispatch, entering a [with store.subscribe(...)], the generator
    of [subscribe] resumed after its [yield], a consumer reading. *)
Inductive op : Type :=
  | Dispatch (action : ActionT)
  | Subscribe (strategy : SubscriptionStrategy)
  | Resume (sub : SubRef)
  | Read (sub : SubRef).

Definition step (w : Store * Heap) (o : op) : Store * Heap :=
  match o with
  | Dispatch action => let '(_, self, heap) := Store.dispatch w.1 action w.2 in (self, heap)
  | Subscribe strategy => let '(_, self, heap) := Store.subscribe w.1 strategy w.2 in (self, heap)
  | Resume sub => ((Store.subscribe_resume w.1 sub).2, w.2)
  | Read sub => (w.1, (read sub w.2).2)
  end.

Definition run (ops : list op) (w : Store * Heap) : Store * Heap := foldl step w ops.

(** A [LATEST] subscription has a queue bounded to one item, holding
    at most one. *)
Definition latest_bounded (s : Subscription) : Prop :=
  _strategy s = LATEST →
  deque.maxlen (_queue s) = Some 1 ∧ length (Subscription.pending s) ≤ 1.

(** The subscriptions a tree of stores refers to are distinct objects
    of the heap. *)
Definition well_formed (w : Store * Heap) : Prop :=
  NoDup (all_refs w.1) ∧ Forall (λ sub, sub < length w.2) (all_refs w.1).

Definition substates (substores : list (string * Store)) : list (string * StateT) :=
  (λ item, (item.1, state item.2)) <$> substores.

(** The handlers of a list of members, with their names. *)
Definition handlers (members : list (string * Member))
  : list (string * (ActionType * Method)) :=
  omap (λ '(name, member),
          match member with
          | ReducerMethod action_type func => Some (name, (action_type, func))
          | Attribute | PlainMethod => None
          end)
       members.

Definition name_lt (x y : string) : Prop := String.ltb x y = true.
End specification.

(** ** Induction on a tree of stores *)

Section Store_induction.
Context `{Types} (P : Store → Prop).
Hypothesis Hplain : ∀ st subs reds, P (Plain st subs reds).
Hypothesis Hcombined : ∀ st subs reds combine substores,
  Forall (λ item, P item.2) substores →
  P (Combined st subs reds combine substores).

Fixpoint Store_tree_ind (self : Store) : P self :=
  match self with
  | Plain st subs reds => Hplain st subs reds
  | Combined st subs reds combine substores =>
      Hcombined st subs reds combine substores
        ((fix go (items : list (string * Store)) : Forall (λ item, P item.2) items :=
            match items with
            | [] => @List.Forall_nil _ (λ item, P item.2)
            | (name, substore) :: items =>
                @List.Forall_cons _ (λ item, P item.2) (name, substore) items
                  (Store_tree_ind substore) (go items)
            end) substores)
  end.
End Store_induction.

Section StoreClass_induction.
Context `{Types} (P : StoreClass → Prop).
Hypothesis Hplain : ∀ class_state body, P (plain_class class_state body).
Hypothesis Hcombined : ∀ class_state body combine kwargs,
  Forall (λ item, P item.2) kwargs →
  P (combined_class class_state body combine kwargs).

Fixpoint StoreClass_tree_ind (cls : StoreClass) : P cls :=
  match cls with
  | plain_class class_state body => Hplain class_state body
  | combined_class class_state body combine kwargs =>
      Hcombined class_state body combine kwargs
        ((fix go (items : list (string * StoreClass)) : Forall (λ item, P item.2) items :=
            match items with
            | [] => @List.Forall_nil _ (λ item, P item.2)
            | (name, substore_cls) :: items =>
                @List.Forall_cons _ (λ item, P item.2) (name, substore_cls) items
                  (StoreClass_tree_ind substore_cls) (go items)
            end) kwargs)
  end.
End StoreClass_induction.

(** ** The rest of the module

    What the properties of the last part of the development are
    stated with. *)

Section rest.
Context `{Types}.

Definition _substores (self : Store) : list (string * Store) :=
  match self with
  | Plain _ _ _ => []
  | Combined _ _ _ _ substores => substores
  end.

(** A subscription as [Subscription.__init__] makes it and the
    methods keep it: the queue of a [LATEST] one is bounded to one
    item and holds at most one, the queue of an [EVERY] one is
    unbounded. *)
Definition as_subscribed (s : Subscription) : Prop :=
  match _strategy s with
  | LATEST => deque.maxlen (_queue s) = Some 1 ∧ length (Subscription.pending s) ≤ 1
  | EVERY => deque.maxlen (_queue s) = None
  end.

(** A consumer suspended in [wait()] while a notification is pending
    waits on an event that is set. *)
Definition wakes_up (s : Subscription) : Prop :=
  awaiting s = true → Subscription.pending s ≠ [] → _notification_event s = true.

(** What happens to one subscription: a notification is pushed to
    it, or its consumer reads. *)
Inductive sub_event : Type :=
  | Push (notification : StateT * ActionT)
  | Pop.

(** The notifications the reads of a sequence of events return, in
    order, and the subscription the events leave. *)
Fixpoint play (s : Subscription) (events : list sub_event)
  : list (StateT * ActionT) * Subscription :=
  match events with
  | [] => ([], s)
  | Push notification :: events =>
      play (Subscription._notify s notification.1 notification.2) events
  | Pop :: events =>
      let '(p, s) := Subscription.__anext__ s in
      let '(reads, s) := play s events in
      (match p with Ready notification => notification :: reads | Pending => reads end, s)
  end.

Definition pushed (events : list sub_event) : list (StateT * ActionT) :=
  omap (λ e, match e with Push notification => Some notification | Pop => None end) events.

(** A [with] body that dispatches actions one after the other. *)
Definition dispatching (actions : list ActionT) (_ : SubRef) (self : Store) (heap : Heap)
  : Completion unit * Store * Heap :=
  let '(r, self, heap) := dispatch_all self actions heap in
  (match r with Ok _ => Normal () | Raise e => Raised e end, self, heap).
End rest.

(** * Properties *)

(** ** Results *)

Lemma foldl_Raise {A B} (f : A → B → Result A) (e : exn) (l : list B) :
  foldl (λ acc x, a ← acc; f a x) (Raise e) l = Raise e.
Proof. induction l as [|x l IH]; [done|]. simpl. exact IH. Qed.

(** ** The reducer loop *)

Section reducers.
Context `{Types}.

Lemma _set_state_state (self : Store) : _set_state self (state self) = self.
Proof. by destruct self. Qed.

Lemma state_set_state (self : Store) st : state (_set_state self st) = st.
Proof. by destruct self. Qed.

Lemma _set_state_twice (self : Store) st st' :
  _set_state (_set_state self st) st' = _set_state self st'.
Proof. by destruct self. Qed.

Lemma _subscriptions_set_state (self : Store) st :
  _subscriptions (_set_state self st) = _subscriptions self.
Proof. by destruct self. Qed.

Lemma _reducers_set_state (self : Store) st :
  _reducers (_set_state self st) = _reducers self.
Proof. by destruct self. Qed.

Lemma fold_reducers_nil st action : fold_reducers [] st action = Ok st.
Proof. done. Qed.

Lemma fold_reducers_cons action_type (reducer : Method) reducers st action :
  fold_reducers ((action_type, reducer) :: reducers) st action =
    if isinstance action action_type
    then st' ← reducer st action; fold_reducers reducers st' action
    else fold_reducers reducers st action.
Proof.
  unfold fold_reducers. simpl. unfold reduce at 2. simpl.
  destruct (isinstance action action_type); [|done].
  destruct (reducer st action) as [st'|e]; simpl; [done|].
  apply (foldl_Raise (λ st entry,
    if isinstance action entry.1 then entry.2 st action else Ok st)).
Qed.

Lemma fold_reducers_app reducers1 reducers2 st action :
  fold_reducers (reducers1 ++ reducers2) st action =
    st' ← fold_reducers reducers1 st action; fold_reducers reducers2 st' action.
Proof.
  revert st. induction reducers1 as [|[action_type reducer] reducers1 IH]; intros st.
  - done.
  - simpl. rewrite !fold_reducers_cons.
    destruct (isinstance action action_type); [|apply IH].
    destruct (reducer st action) as [st'|e]; simpl; [apply IH|done].
Qed.

(** The loop of [_compute_state] computes the fold, committing each
    result to [self.state] as it goes. *)
Lemma for_reducers_Ok reducers (self : Store) action st' :
  fold_reducers reducers (state self) action = Ok st' →
  Store.for_reducers reducers self action = (Ok (), _set_state self st').
Proof.
  revert self. induction reducers as [|[action_type reducer] reducers IH]; intros self.
  - rewrite fold_reducers_nil. intros [= <-]. by rewrite _set_state_state.
  - rewrite fold_reducers_cons. simpl.
    destruct (isinstance action action_type); [|apply IH].
    destruct (reducer (state self) action) as [st|e]; simpl; [|done].
    intros Hfold. rewrite (IH (_set_state self st)).
    + by rewrite _set_state_twice.
    + by rewrite state_set_state.
Qed.

Lemma for_reducers_Raise reducers (self : Store) action e :
  fold_reducers reducers (state self) action = Raise e →
  (Store.for_reducers reducers self action).1 = Raise e.
Proof.
  revert self. induction reducers as [|[action_type reducer] reducers IH]; intros self.
  - done.
  - rewrite fold_reducers_cons. simpl.
    destruct (isinstance action action_type); [|apply IH].
    destruct (reducer (state self) action) as [st|e']; simpl.
    + intros Hfold. apply IH. by rewrite state_set_state.
    + by intros [= <-].
Qed.

Lemma for_reducers_app reducers1 reducers2 (self : Store) action :
  Store.for_reducers (reducers1 ++ reducers2) self action =
    match Store.for_reducers reducers1 self action with
    | (Ok _, self') => Store.for_reducers reducers2 self' action
    | (Raise e, self') => (Raise e, self')
    end.
Proof.
  revert self. induction reducers1 as [|[action_type reducer] reducers1 IH]; intros self.
  - done.
  - simpl. destruct (isinstance action action_type); [|apply IH].
    destruct (reducer (state self) action) as [st|e]; [apply IH|done].
Qed.

Lemma fold_reducers_no_match reducers st action :
  Forall (λ entry, isinstance action entry.1 = false) reducers →
  fold_reducers reducers st action = Ok st.
Proof.
  induction 1 as [|[action_type reducer] reducers Hx _ IH]; [done|].
  rewrite fold_reducers_cons. simpl in Hx. by rewrite Hx.
Qed.
End reducers.

(** ** Delivering notifications *)

Section deliver.
Context `{Types}.
Implicit Types (heap : Heap) (log : list (SubRef * StateT)) (sub : SubRef).

Lemma notify_all_deliver subs st action heap :
  notify_all subs st action heap = deliver action heap ((λ sub, (sub, st)) <$> subs).
Proof.
  unfold notify_all, deliver. revert heap.
  induction subs as [|sub subs IH]; intros heap; [done|]. simpl. apply IH.
Qed.

Lemma deliver_app action heap log1 log2 :
  deliver action heap (log1 ++ log2) = deliver action (deliver action heap log1) log2.
Proof. unfold deliver. apply foldl_app. Qed.

Lemma deliver_snoc action heap log n :
  deliver action heap (log ++ [n]) =
    alter (λ s, Subscription._notify s n.2 action) n.1 (deliver action heap log).
Proof. unfold deliver. by rewrite foldl_app. Qed.

Lemma deliver_length action heap log : length (deliver action heap log) = length heap.
Proof.
  unfold deliver. revert heap. induction log as [|n log IH]; intros heap; [done|].
  simpl. by rewrite IH, length_alter.
Qed.

Lemma deliver_lookup_notin action heap log sub :
  sub ∉ log.*1 → deliver action heap log !! sub = heap !! sub.
Proof.
  unfold deliver. revert heap. induction log as [|n log IH]; intros heap Hsub; [done|].
  simpl in *. apply not_elem_of_cons in Hsub as [Hne Hsub].
  rewrite IH by done. apply list_lookup_alter_ne. congruence.
Qed.

Lemma deliver_Forall (P : Subscription → Prop) action heap log :
  (∀ s st, P s → P (Subscription._notify s st action)) →
  Forall P heap → Forall P (deliver action heap log).
Proof.
  intros HP. unfold deliver. revert heap.
  induction log as [|n log IH]; intros heap Hheap; [done|].
  simpl. apply IH. apply Forall_alter; [done|]. intros s _. apply HP.
Qed.

(** A subscription that is notified once receives exactly that
    notification. *)
Lemma deliver_lookup_once action heap subs st sub :
  NoDup subs → sub ∈ subs →
  deliver action heap ((λ sub, (sub, st)) <$> subs) !! sub =
    (λ s, Subscription._notify s st action) <$> heap !! sub.
Proof.
  intros Hnodup. revert heap.
  induction Hnodup as [|sub' subs Hnotin Hnodup IH]; intros heap Hsub.
  - by apply elem_of_nil in Hsub.
  - simpl. apply elem_of_cons in Hsub as [->|Hsub].
    + change (foldl _ ?h ?l) with (deliver action h l).
      rewrite deliver_lookup_notin.
      * apply list_lookup_alter_eq.
      * rewrite <- list_fmap_compose. simpl. by rewrite list_fmap_id.
    + change (foldl _ ?h ?l) with (deliver action h l).
      rewrite IH by done. apply (f_equal (fmap _)), list_lookup_alter_ne.
      intros ->. done.
Qed.
End deliver.

(** ** Dispatch *)

Section dispatch.
Context `{Types}.

Lemma dispatch_unfold self action heap :
  Store.dispatch self action heap =
    let '(r, self, heap) := compute_state self action heap in
    match r with
    | Raise e => (Raise e, self, heap)
    | Ok _ =>
        let st := state self in
        (Ok st, self, notify_all (_subscriptions self) st action heap)
    end.
Proof. by destruct self. Qed.

(** The reducer loop changes nothing of a store but its state. *)
Lemma for_reducers_shape reducers (self : Store) action :
  ∃ st, (Store.for_reducers reducers self action).2 = _set_state self st.
Proof.
  revert self. induction reducers as [|[action_type reducer] reducers IH]; intros self.
  - exists (state self). simpl. by rewrite _set_state_state.
  - simpl. destruct (isinstance action action_type); [|apply IH].
    destruct (reducer (state self) action) as [st|e]; simpl.
    + destruct (IH (_set_state self st)) as [st' Hst']. exists st'.
      by rewrite Hst', _set_state_twice.
    + exists (state self). by rewrite _set_state_state.
Qed.

Lemma substore_refs_set_state (self : Store) st :
  substore_refs (_set_state self st) = substore_refs self.
Proof. by destruct self. Qed.

Lemma for_substores_logged items action heap r items' heap' :
  Forall (λ item, dispatch_logged item.2) items →
  combined_store.for_substores Store.dispatch items action heap = (r, items', heap') →
  flat_map (λ item, _subscriptions item.2 ++ substore_refs item.2) items' =
    flat_map (λ item, _subscriptions item.2 ++ substore_refs item.2) items ∧
  match r with Ok sts => sts = substates items' | Raise _ => True end ∧
  ∃ log,
    Forall (λ n, n.1 ∈ flat_map (λ item, _subscriptions item.2 ++ substore_refs item.2) items)
      log ∧
    heap' = deliver action heap log.
Proof.
  intros Hitems. revert heap r items' heap'.
  induction Hitems as [|[name substore] items Hsub _ IH]; intros heap r items' heap'.
  - simpl. intros [= <- <- <-]. split_and!; [done..|]. by exists [].
  - simpl.
    destruct (Store.dispatch substore action heap) as [[r1 substore'] heap1] eqn:Hd.
    destruct (Hsub _ _ _ _ _ Hd) as (Hsubs & Hrefs & Hst & log1 & Hlog1 & ->).
    simpl in *. destruct r1 as [st|e].
    + destruct (combined_store.for_substores Store.dispatch items action _)
        as [[r2 items2] heap2] eqn:Hrest.
      destruct (IH _ _ _ _ Hrest) as (Hrefs2 & Hsts & log2 & Hlog2 & ->).
      intros [= <- <- <-]. simpl. split_and!.
      * by rewrite Hsubs, Hrefs, Hrefs2.
      * destruct r2 as [sts|e]; simpl; [|done]. by rewrite Hsts, Hst.
      * exists ((log1 ++ ((λ sub, (sub, st)) <$> _subscriptions substore)) ++ log2).
        split; [|symmetry; apply deliver_app].
        rewrite !Forall_app. split_and!.
        -- eapply Forall_impl; [exact Hlog1|]. simpl. intros n Hn.
           rewrite !elem_of_app. auto.
        -- apply Forall_fmap, Forall_forall. simpl. intros sub Hin.
           rewrite !elem_of_app. auto.
        -- eapply Forall_impl; [exact Hlog2|]. simpl. intros n Hn.
           rewrite !elem_of_app. auto.
    + intros [= <- <- <-]. simpl. split_and!.
      * by rewrite Hsubs, Hrefs.
      * done.
      * exists log1. rewrite app_nil_r. split; [|done].
        eapply Forall_impl; [exact Hlog1|]. simpl. intros n Hn.
        rewrite !elem_of_app. auto.
Qed.

Lemma dispatch_is_logged (self : Store) : dispatch_logged self.
Proof.
  induction self as [st subs reds|st subs reds combine substores IH] using Store_tree_ind;
    intros action heap r self' heap'; rewrite dispatch_unfold.
  - simpl. unfold Store._compute_state. simpl.
    destruct (for_reducers_shape reds (Plain st subs reds) action) as [st' Hshape].
    destruct (Store.for_reducers reds _ action) as [r0 self0]. simpl in Hshape.
    subst self0. simpl. destruct r0 as [[]|e]; intros [= <- <- <-]; simpl.
    + split_and!; [done..|]. exists []. split; [done|]. simpl.
      apply notify_all_deliver.
    + split_and!; [done..|]. by exists [].
  - simpl.
    destruct (combined_store.for_substores Store.dispatch substores action heap)
      as [[r1 substores1] heap1] eqn:Hfor.
    destruct (for_substores_logged _ _ _ _ _ _ IH Hfor) as (Hrefs & Hsts & log & Hlog & ->).
    destruct r1 as [sts|e]; simpl.
    + destruct (combine sts) as [st'|e]; simpl; intros [= <- <- <-]; simpl.
      * split_and!; [done..|]. exists log. split; [done|].
        by rewrite deliver_app, notify_all_deliver.
      * split_and!; [done..|]. exists log. by rewrite app_nil_r.
    + intros [= <- <- <-]. simpl. split_and!; [done..|]. exists log.
      by rewrite app_nil_r.
Qed.
End dispatch.

Section dispatch_heap.
Context `{Types}.

Lemma Forall_log_notin (refs : list SubRef) (log : list (SubRef * StateT)) sub :
  Forall (λ n, n.1 ∈ refs) log → sub ∉ refs → sub ∉ log.*1.
Proof.
  intros Hlog Hsub Hin. apply list_elem_of_fmap in Hin as (n & -> & Hn).
  rewrite Forall_forall in Hlog. by apply Hsub, Hlog.
Qed.

(** A dispatch leaves alone every subscription that is not in the
    tree of the store. *)
Lemma dispatch_lookup_other (self : Store) action heap r self' heap' sub :
  Store.dispatch self action heap = (r, self', heap') →
  sub ∉ all_refs self →
  heap' !! sub = heap !! sub.
Proof.
  intros Hd Hsub. unfold all_refs in Hsub. apply not_elem_of_app in Hsub as [Hsub1 Hsub2].
  destruct (dispatch_is_logged self _ _ _ _ _ Hd) as (_ & _ & _ & log & Hlog & ->).
  apply deliver_lookup_notin. rewrite fmap_app. apply not_elem_of_app. split.
  - by eapply Forall_log_notin.
  - destruct r as [st|e]; [|apply not_elem_of_nil].
    rewrite <- list_fmap_compose. simpl. by rewrite list_fmap_id.
Qed.

(** A dispatch that returns has notified each subscription of the
    store, once, with the state it returns. *)
Lemma dispatch_lookup_live (self : Store) action heap st self' heap' sub :
  NoDup (all_refs self) →
  Store.dispatch self action heap = (Ok st, self', heap') →
  sub ∈ _subscriptions self →
  heap' !! sub = (λ s, Subscription._notify s st action) <$> heap !! sub.
Proof.
  intros Hnodup Hd Hsub. unfold all_refs in Hnodup.
  apply NoDup_app in Hnodup as (Hnodup & Hdisjoint & _).
  destruct (dispatch_is_logged self _ _ _ _ _ Hd) as (_ & _ & _ & log & Hlog & ->).
  rewrite deliver_app, deliver_lookup_once by done.
  f_equal. apply deliver_lookup_notin. eapply Forall_log_notin; [exact Hlog|].
  by apply Hdisjoint.
Qed.

Lemma dispatch_length (self : Store) action heap r self' heap' :
  Store.dispatch self action heap = (r, self', heap') → length heap' = length heap.
Proof.
  intros Hd.
  destruct (dispatch_is_logged self _ _ _ _ _ Hd) as (_ & _ & _ & log & Hlog & ->).
  apply deliver_length.
Qed.

Lemma dispatch_all_refs (self : Store) action heap r self' heap' :
  Store.dispatch self action heap = (r, self', heap') →
  _subscriptions self' = _subscriptions self ∧ all_refs self' = all_refs self.
Proof.
  intros Hd.
  destruct (dispatch_is_logged self _ _ _ _ _ Hd) as (Hsubs & Hrefs & _).
  unfold all_refs. by rewrite Hsubs, Hrefs.
Qed.

Lemma dispatch_returns_state (self : Store) action heap st self' heap' :
  Store.dispatch self action heap = (Ok st, self', heap') → st = state self'.
Proof.
  intros Hd. by destruct (dispatch_is_logged self _ _ _ _ _ Hd) as (_ & _ & Hst & _).
Qed.

Lemma dispatch_Forall (P : Subscription → Prop) (self : Store) action heap r self' heap' :
  (∀ s st, P s → P (Subscription._notify s st action)) →
  Store.dispatch self action heap = (r, self', heap') →
  Forall P heap → Forall P heap'.
Proof.
  intros HP Hd.
  destruct (dispatch_is_logged self _ _ _ _ _ Hd) as (_ & _ & _ & log & Hlog & ->).
  by apply deliver_Forall.
Qed.

(** A dispatch into a plain store, by the fold of its registry. *)
Lemma dispatch_plain_Ok st subs reducers action heap st' :
  fold_reducers reducers st action = Ok st' →
  Store.dispatch (Plain st subs reducers) action heap =
    (Ok st', Plain st' subs reducers, notify_all subs st' action heap).
Proof.
  intros Hfold. rewrite dispatch_unfold. simpl. unfold Store._compute_state. simpl.
  by rewrite (for_reducers_Ok reducers (Plain st subs reducers) action st' Hfold).
Qed.

Lemma dispatch_plain_Raise st subs reducers action heap e :
  fold_reducers reducers st action = Raise e →
  (Store.dispatch (Plain st subs reducers) action heap).1.1 = Raise e.
Proof.
  intros Hfold. rewrite dispatch_unfold. simpl. unfold Store._compute_state. simpl.
  pose proof (for_reducers_Raise reducers (Plain st subs reducers) action e Hfold) as Hr.
  destruct (Store.for_reducers reducers _ action) as [r self']. simpl in Hr. by subst r.
Qed.
End dispatch_heap.

(** ** The claims on dispatch *)

Section dispatch_claims.
Context `{Types}.

(** C1.  The state after a sequence of dispatches is the left fold,
    over the actions, of the left fold of the matching reducers over
    the registry in order, each reducer applied to the result of the
    one before; successive dispatches return exactly when the fold has
    a value, and raise what the fold raises otherwise.  One dispatch
    computes the fold of the registry, and with no matching entry it
    returns the state unchanged. *)
Theorem C1_dispatch_is_left_fold st subs reducers :
  (∀ actions heap,
     let '(r, self', _) := dispatch_all (Plain st subs reducers) actions heap in
     match fold_actions reducers st actions with
     | Ok st' => is_Ok r = true ∧ self' = Plain st' subs reducers
     | Raise e => r = Raise e
     end) ∧
  (∀ action heap,
     let '(r, self', _) := Store.dispatch (Plain st subs reducers) action heap in
     match fold_reducers reducers st action with
     | Ok st' => r = Ok st' ∧ self' = Plain st' subs reducers
     | Raise e => r = Raise e
     end) ∧
  (∀ action,
     Forall (λ entry, isinstance action entry.1 = false) reducers →
     fold_reducers reducers st action = Ok st).
Proof.
  split_and!.
  - intros actions. revert st.
    induction actions as [|action actions IH]; intros st heap; [done|].
    simpl. unfold fold_actions. simpl.
    destruct (fold_reducers reducers st action) as [st1|e] eqn:Hfold.
    + rewrite (dispatch_plain_Ok _ _ _ _ _ _ Hfold).
      specialize (IH st1 (notify_all subs st1 action heap)).
      destruct (dispatch_all _ actions _) as [[r self'] heap'].
      fold (fold_actions reducers st1 actions).
      destruct (fold_actions reducers st1 actions) as [st'|e].
      * destruct IH as [Hr ->]. by destruct r.
      * by subst r.
    + pose proof (dispatch_plain_Raise _ subs _ _ heap _ Hfold) as Hr.
      destruct (Store.dispatch _ action heap) as [[r self'] heap']. simpl in Hr.
      subst r. by rewrite foldl_Raise.
  - intros action heap.
    destruct (fold_reducers reducers st action) as [st'|e] eqn:Hfold.
    + by rewrite (dispatch_plain_Ok _ _ _ _ _ _ Hfold).
    + pose proof (dispatch_plain_Raise _ subs _ _ heap _ Hfold) as Hr.
      by destruct (Store.dispatch _ action heap) as [[r self'] heap'].
  - intros action. apply fold_reducers_no_match.
Qed.

(** C9.  When a reducer raises during a dispatch, the dispatch raises
    the same exception, and the state of the store is the one the
    earlier matching reducers of that dispatch had produced: their
    results stay committed.  No subscription is notified. *)
Theorem C9_raising_reducer_keeps_partial_state
    st subs before action_type (reducer : Method) after action heap st' e :
  isinstance action action_type = true →
  fold_reducers before st action = Ok st' →
  reducer st' action = Raise e →
  Store.dispatch (Plain st subs (before ++ (action_type, reducer) :: after)) action heap =
    (Raise e, Plain st' subs (before ++ (action_type, reducer) :: after), heap).
Proof.
  intros Hmatch Hbefore Hraise. rewrite dispatch_unfold. simpl.
  unfold Store._compute_state. simpl. rewrite for_reducers_app.
  rewrite (for_reducers_Ok before (Plain st subs _) action st' Hbefore).
  simpl. by rewrite Hmatch, Hraise.
Qed.

Lemma _notify_pending (s : Subscription) st action :
  as_subscribed s →
  Subscription.pending (Subscription._notify s st action) =
    match _strategy s with
    | LATEST => [(st, action)]
    | EVERY => Subscription.pending s ++ [(st, action)]
    end.
Proof.
  unfold as_subscribed, Subscription.pending. simpl. unfold deque.append.
  destruct (_strategy s).
  - intros [-> Hlen]. destruct (deque.items (_queue s)) as [|x [|y l]]; simpl in *;
      [done..|lia].
  - by intros ->.
Qed.

(** C2.  A dispatch that has run its reducers returns the state the
    store then has, and has notified every subscription of the store
    with that state and the action: the pair is what a LATEST
    subscription then has pending, and it is added after what an
    EVERY subscription had pending.  When no reducer matches the
    action, the dispatch still returns, with the state unchanged, and
    the subscriptions are notified with the unchanged state. *)
Theorem C2_dispatch_notifies_and_returns_state (self : Store) action heap :
  NoDup (all_refs self) →
  (∀ st self' heap',
     Store.dispatch self action heap = (Ok st, self', heap') →
     st = state self' ∧
     _subscriptions self' = _subscriptions self ∧
     (∀ sub, sub ∈ _subscriptions self' →
       heap' !! sub = (λ s, Subscription._notify s st action) <$> heap !! sub) ∧
     (∀ sub s, sub ∈ _subscriptions self' → heap !! sub = Some s → as_subscribed s →
       pending_of sub heap' =
         Some (match _strategy s with
               | LATEST => [(st, action)]
               | EVERY => Subscription.pending s ++ [(st, action)]
               end))) ∧
  (∀ st subs reducers,
     self = Plain st subs reducers →
     Forall (λ entry, isinstance action entry.1 = false) reducers →
     Store.dispatch self action heap = (Ok st, self, notify_all subs st action heap) ∧
     (∀ sub s, sub ∈ subs → heap !! sub = Some s → as_subscribed s →
       pending_of sub (notify_all subs st action heap) =
         Some (match _strategy s with
               | LATEST => [(st, action)]
               | EVERY => Subscription.pending s ++ [(st, action)]
               end))).
Proof.
  intros Hnodup.
  assert (∀ st self' heap' sub s,
            Store.dispatch self action heap = (Ok st, self', heap') →
            sub ∈ _subscriptions self → heap !! sub = Some s → as_subscribed s →
            pending_of sub heap' =
              Some (match _strategy s with
                    | LATEST => [(st, action)]
                    | EVERY => Subscription.pending s ++ [(st, action)]
                    end)) as Hpending.
  { intros st self' heap' sub s Hd Hin Hsub Hs. unfold pending_of.
    rewrite (dispatch_lookup_live _ _ _ _ _ _ sub Hnodup Hd Hin), Hsub. simpl.
    by rewrite _notify_pending. }
  split.
  - intros st self' heap' Hd.
    destruct (dispatch_all_refs _ _ _ _ _ _ Hd) as [Hsubs _].
    split_and!; [by eapply dispatch_returns_state|done| |].
    + intros sub Hsub. rewrite Hsubs in Hsub. by eapply dispatch_lookup_live.
    + intros sub s Hsub. rewrite Hsubs in Hsub. by eapply Hpending.
  - intros st subs reducers -> Hnone.
    assert (Store.dispatch (Plain st subs reducers) action heap =
              (Ok st, Plain st subs reducers, notify_all subs st action heap)) as Hd.
    { by apply dispatch_plain_Ok, fold_reducers_no_match. }
    split; [exact Hd|]. intros sub s Hin. by eapply Hpending.
Qed.
End dispatch_claims.

(** ** Subscriptions and their queues *)

Section subscriptions.
Context `{Types}.
Implicit Types (s : Subscription) (heap : Heap) (sub : SubRef).

Lemma _notify_strategy s st action :
  _strategy (Subscription._notify s st action) = _strategy s.
Proof. done. Qed.

Lemma _notify_maxlen s st action :
  deque.maxlen (_queue (Subscription._notify s st action)) = deque.maxlen (_queue s).
Proof. simpl. unfold deque.append. by destruct (deque.maxlen (_queue s)). Qed.

(** On an unbounded queue a notification is appended. *)
Lemma _notify_unbounded s st action :
  deque.maxlen (_queue s) = None →
  Subscription.pending (Subscription._notify s st action) =
    Subscription.pending s ++ [(st, action)].
Proof. unfold Subscription.pending. simpl. unfold deque.append. by intros ->. Qed.

(** On a queue bounded to one item a notification replaces what is
    pending. *)
Lemma _notify_bounded s st action :
  deque.maxlen (_queue s) = Some 1 → length (Subscription.pending s) ≤ 1 →
  Subscription.pending (Subscription._notify s st action) = [(st, action)].
Proof.
  unfold Subscription.pending. simpl. unfold deque.append. intros -> Hlen.
  destruct (deque.items (_queue s)) as [|x [|y l]]; simpl in *; [done..|lia].
Qed.

Lemma __init___latest_bounded strategy : latest_bounded (Subscription.__init__ strategy).
Proof. intros Hs. simpl in Hs. subst strategy. simpl. split; [done|lia]. Qed.

Lemma _notify_latest_bounded s st action :
  latest_bounded s → latest_bounded (Subscription._notify s st action).
Proof.
  intros Hs Hlatest. rewrite _notify_strategy in Hlatest.
  destruct (Hs Hlatest) as [Hmax Hlen]. rewrite _notify_maxlen. split; [done|].
  rewrite _notify_bounded by done. simpl. lia.
Qed.

Lemma _notify_awaiting s st action :
  awaiting (Subscription._notify s st action) = awaiting s.
Proof. done. Qed.

(** The loop of [__anext__]: it suspends on an empty queue and pops
    the oldest item otherwise. *)
Lemma __anext___loop_empty s :
  deque.items (_queue s) = [] →
  Subscription.__anext___loop s =
    (Pending, mkSubscription _ (_strategy s) (_notification_event s) (_queue s) true).
Proof.
  unfold Subscription.__anext___loop, deque.popleft, deque.len. by intros ->.
Qed.

Lemma __anext___loop_pop s x l :
  deque.items (_queue s) = x :: l →
  Subscription.__anext___loop s =
    (Ready x, mkSubscription _ (_strategy s) (_notification_event s)
                (deque.mk l (deque.maxlen (_queue s))) false).
Proof.
  unfold Subscription.__anext___loop, deque.popleft, deque.len. by intros ->.
Qed.

(** A turn of the consumer keeps the strategy and the bound of the
    queue, and either returns the oldest pending item or leaves the
    queue as it is. *)
Lemma __anext___cases s :
  _strategy (Subscription.__anext__ s).2 = _strategy s ∧
  deque.maxlen (_queue (Subscription.__anext__ s).2) = deque.maxlen (_queue s) ∧
  ((Subscription.__anext__ s).1 = Pending ∧
   Subscription.pending (Subscription.__anext__ s).2 = Subscription.pending s ∨
   ∃ x, (Subscription.__anext__ s).1 = Ready x ∧
        Subscription.pending s = x :: Subscription.pending (Subscription.__anext__ s).2 ∧
        awaiting (Subscription.__anext__ s).2 = false).
Proof.
  unfold Subscription.__anext__, Subscription.pending.
  destruct (awaiting s); [destruct (_notification_event s)|].
  - destruct (deque.items (_queue s)) as [|x l] eqn:Hitems.
    + rewrite __anext___loop_empty by done. simpl. split_and!; [done..|]. by left.
    + rewrite (__anext___loop_pop _ x l) by done. simpl. split_and!; [done..|].
      right. by exists x.
  - split_and!; [done..|by left].
  - destruct (deque.items (_queue s)) as [|x l] eqn:Hitems.
    + rewrite __anext___loop_empty by done. simpl. split_and!; [done..|]. by left.
    + rewrite (__anext___loop_pop _ x l) by done. simpl. split_and!; [done..|].
      right. by exists x.
Qed.

Lemma __anext___latest_bounded s :
  latest_bounded s → latest_bounded (Subscription.__anext__ s).2.
Proof.
  intros Hs. destruct (__anext___cases s) as (Hstrat & Hmax & Hcases).
  unfold latest_bounded. rewrite Hstrat, Hmax. intros Hlatest.
  destruct (Hs Hlatest) as [Hmax' Hlen]. split; [done|].
  destruct Hcases as [[_ ->]|(x & _ & Hpending & _)]; [done|].
  rewrite Hpending in Hlen. simpl in Hlen. lia.
Qed.

(** A consumer that wakes up when it should: a turn pops the oldest
    pending item, and suspends when there is none. *)
Lemma _notify_wakes_up s st action : wakes_up (Subscription._notify s st action).
Proof. done. Qed.

Lemma __anext___wakes_up s :
  wakes_up s →
  wakes_up (Subscription.__anext__ s).2 ∧
  match Subscription.pending s with
  | [] =>
      (Subscription.__anext__ s).1 = Pending ∧
      Subscription.pending (Subscription.__anext__ s).2 = [] ∧
      awaiting (Subscription.__anext__ s).2 = true
  | x :: l =>
      (Subscription.__anext__ s).1 = Ready x ∧
      Subscription.pending (Subscription.__anext__ s).2 = l ∧
      awaiting (Subscription.__anext__ s).2 = false
  end.
Proof.
  unfold wakes_up, Subscription.__anext__, Subscription.pending. intros Hs.
  destruct (awaiting s) eqn:Hawait; [destruct (_notification_event s) eqn:Hevent|].
  - destruct (deque.items (_queue s)) as [|x l] eqn:Hitems.
    + rewrite __anext___loop_empty by done. simpl. by rewrite Hitems.
    + rewrite (__anext___loop_pop _ x l) by done. simpl. done.
  - destruct (deque.items (_queue s)) as [|x l] eqn:Hitems.
    + simpl. by rewrite Hawait, Hitems.
    + by specialize (Hs eq_refl ltac:(done)).
  - destruct (deque.items (_queue s)) as [|x l] eqn:Hitems.
    + rewrite __anext___loop_empty by done. simpl. by rewrite Hitems.
    + rewrite (__anext___loop_pop _ x l) by done. simpl. done.
Qed.

Lemma __anext___pending s x l :
  wakes_up s →
  Subscription.pending s = x :: l →
  (Subscription.__anext__ s).1 = Ready x ∧
  Subscription.pending (Subscription.__anext__ s).2 = l.
Proof.
  intros Hs Hpending. destruct (__anext___wakes_up s Hs) as [_ Hnext].
  rewrite Hpending in Hnext. by destruct Hnext as (? & ? & _).
Qed.

Lemma __anext___empty s :
  Subscription.pending s = [] → (Subscription.__anext__ s).1 = Pending.
Proof.
  intros Hpending. destruct (__anext___cases s) as (_ & _ & [[? _]|(x & _ & Hx & _)]);
    [done|]. by rewrite Hpending in Hx.
Qed.

Lemma read_lookup sub heap s :
  heap !! sub = Some s →
  read sub heap = ((Subscription.__anext__ s).1, <[sub := (Subscription.__anext__ s).2]> heap).
Proof. unfold read. intros ->. by destruct (Subscription.__anext__ s). Qed.

Lemma read_n_pending l : ∀ sub heap s,
  heap !! sub = Some s → wakes_up s → Subscription.pending s = l →
  (read_n (length l) sub heap).1 = Ready <$> l ∧
  pending_of sub (read_n (length l) sub heap).2 = Some [].
Proof.
  induction l as [|x l IH]; intros sub heap s Hsub Hs Hpending.
  - simpl. unfold pending_of. by rewrite Hsub, <- Hpending.
  - cbn [length read_n]. rewrite (read_lookup _ _ _ Hsub).
    destruct (__anext___pending s x l Hs Hpending) as [Hready Hrest].
    destruct (__anext___wakes_up s Hs) as [Hs' _].
    destruct (Subscription.__anext__ s) as [p s']. simpl in Hready, Hrest, Hs'. subst p.
    cbn [fst snd].
    assert (<[sub:=s']> heap !! sub = Some s') as Hsub'.
    { apply list_lookup_insert_eq. by eapply lookup_lt_Some. }
    destruct (IH sub _ s' Hsub' Hs' Hrest) as [Hps Hleft].
    destruct (read_n (length l) sub (<[sub:=s']> heap)) as [ps heap']. simpl in *.
    by rewrite Hps.
Qed.

(** What a log of notifications leaves pending in a queue bounded to
    one item: the last notification of the log for it. *)
Lemma deliver_bounded action heap (log : list (SubRef * StateT)) sub s st :
  heap !! sub = Some s →
  deque.maxlen (_queue s) = Some 1 → length (Subscription.pending s) ≤ 1 →
  last (filter (λ n, n.1 = sub) log) = Some (sub, st) →
  pending_of sub (deliver action heap log) = Some [(st, action)].
Proof.
  intros Hsub Hmax Hlen.
  assert (∀ log, ∃ s', deliver action heap log !! sub = Some s' ∧
            deque.maxlen (_queue s') = Some 1 ∧ length (Subscription.pending s') ≤ 1)
    as Hkeeps.
  { clear log. induction log as [|n log IH] using rev_ind; [by exists s|].
    destruct IH as (s' & Hs' & Hmax' & Hlen'). rewrite deliver_snoc.
    destruct (decide (n.1 = sub)) as [<-|Hne].
    - rewrite list_lookup_alter_eq, Hs'. eexists. split; [done|].
      rewrite _notify_maxlen, _notify_bounded by done. simpl. split; [done|lia].
    - rewrite list_lookup_alter_ne by done. by exists s'. }
  induction log as [|n log IH] using rev_ind; [done|].
  rewrite filter_app, filter_cons, filter_nil. unfold pending_of in *.
  rewrite deliver_snoc. destruct (Hkeeps log) as (s' & Hs' & Hmax' & Hlen').
  destruct (decide (n.1 = sub)) as [Heq|Hne].
  - rewrite last_snoc. intros [= ->]. simpl.
    rewrite list_lookup_alter_eq, Hs'. simpl. f_equal. by apply _notify_bounded.
  - rewrite app_nil_r. intros Hlast. rewrite list_lookup_alter_ne by done. by apply IH.
Qed.
End subscriptions.

(** ** Subscriptions across dispatches *)

Section across_dispatches.
Context `{Types}.
Implicit Types (s : Subscription) (heap : Heap) (sub : SubRef) (self : Store).

Lemma deliver_lookup_keeps (P : Subscription → Prop) action heap
    (log : list (SubRef * StateT)) sub s :
  (∀ s st, P s → P (Subscription._notify s st action)) →
  heap !! sub = Some s → P s →
  ∃ s', deliver action heap log !! sub = Some s' ∧ P s'.
Proof.
  intros HP Hsub Hs. induction log as [|n log IH] using rev_ind; [by exists s|].
  destruct IH as (s' & Hs' & HPs'). rewrite deliver_snoc.
  destruct (decide (n.1 = sub)) as [<-|Hne].
  - rewrite list_lookup_alter_eq, Hs'. eexists. split; [done|]. by apply HP.
  - rewrite list_lookup_alter_ne by done. by exists s'.
Qed.

Lemma dispatch_lookup_keeps (P : Subscription → Prop) self action heap r self' heap' sub s :
  (∀ s st, P s → P (Subscription._notify s st action)) →
  Store.dispatch self action heap = (r, self', heap') →
  heap !! sub = Some s → P s →
  ∃ s', heap' !! sub = Some s' ∧ P s'.
Proof.
  intros HP Hd Hsub Hs.
  destruct (dispatch_is_logged self _ _ _ _ _ Hd) as (_ & _ & _ & log & Hlog & ->).
  by eapply deliver_lookup_keeps.
Qed.

Lemma dispatch_all_cons_Ok self action actions heap sts self2 heap2 :
  dispatch_all self (action :: actions) heap = (Ok sts, self2, heap2) →
  ∃ st self1 heap1 sts',
    Store.dispatch self action heap = (Ok st, self1, heap1) ∧
    dispatch_all self1 actions heap1 = (Ok sts', self2, heap2) ∧
    sts = st :: sts'.
Proof.
  cbn [dispatch_all].
  destruct (Store.dispatch self action heap) as [[[st|e] self1] heap1]; [|done].
  destruct (dispatch_all self1 actions heap1) as [[[sts'|e] self2'] heap2'] eqn:Hrest;
    [|done].
  simpl. intros [= <- <- <-]. by exists st, self1, heap1, sts'.
Qed.

Lemma dispatch_all_lookup_keeps (P : Subscription → Prop) actions :
  ∀ self heap sub s,
  (∀ s st action, P s → P (Subscription._notify s st action)) →
  heap !! sub = Some s → P s →
  ∃ s', (dispatch_all self actions heap).2 !! sub = Some s' ∧ P s'.
Proof.
  induction actions as [|action actions IH]; intros self heap sub s HP Hsub Hs.
  - by exists s.
  - cbn [dispatch_all].
    destruct (Store.dispatch self action heap) as [[r self1] heap1] eqn:Hd.
    destruct (dispatch_lookup_keeps P _ _ _ _ _ _ sub s (λ s st, HP s st action) Hd Hsub Hs)
      as (s1 & Hsub1 & Hs1).
    destruct r as [st|e]; [|by exists s1].
    destruct (IH self1 heap1 sub s1 HP Hsub1 Hs1) as (s2 & Hsub2 & Hs2).
    destruct (dispatch_all self1 actions heap1) as [[r2 self2] heap2]. by exists s2.
Qed.

Lemma dispatch_all_length self actions heap sts self2 heap2 :
  dispatch_all self actions heap = (Ok sts, self2, heap2) → length sts = length actions.
Proof.
  revert self heap sts. induction actions as [|action actions IH]; intros self heap sts.
  - by intros [= <- <- <-].
  - intros Hall. apply dispatch_all_cons_Ok in Hall
      as (st & self1 & heap1 & sts' & _ & Hrest & ->).
    simpl. f_equal. by eapply IH.
Qed.

Lemma last_filter_notified (log : list (SubRef * StateT)) subs st sub :
  sub ∈ subs →
  last (filter (λ n, n.1 = sub) (log ++ ((λ sub, (sub, st)) <$> subs))) = Some (sub, st).
Proof.
  intros Hsub. rewrite filter_app, last_app.
  destruct (last (filter _ ((λ sub, (sub, st)) <$> subs))) as [n|] eqn:Hlast.
  - apply last_Some_elem_of, list_elem_of_filter in Hlast as [Hn Hin].
    apply list_elem_of_fmap in Hin as (sub' & -> & _). simpl in Hn. by subst sub'.
  - apply last_None in Hlast.
    assert ((sub, st) ∈ filter (λ n : SubRef * StateT, n.1 = sub)
              ((λ sub, (sub, st)) <$> subs)) as Hin.
    { apply list_elem_of_filter. split; [done|]. apply list_elem_of_fmap. by exists sub. }
    rewrite Hlast in Hin. by apply elem_of_nil in Hin.
Qed.

(** After dispatches that all return, the last of them is what a
    queue bounded to one item holds. *)
Lemma dispatch_all_bounded actions : ∀ self heap action sub s sts self2 heap2,
  sub ∈ _subscriptions self →
  heap !! sub = Some s →
  deque.maxlen (_queue s) = Some 1 ∧ length (Subscription.pending s) ≤ 1 →
  dispatch_all self (actions ++ [action]) heap = (Ok sts, self2, heap2) →
  pending_of sub heap2 = Some [(state self2, action)].
Proof.
  induction actions as [|action0 actions IH];
    intros self heap action sub s sts self2 heap2 Hin Hsub Hs Hall;
    cbn [app] in Hall; apply dispatch_all_cons_Ok in Hall
      as (st & self1 & heap1 & sts' & Hd & Hrest & ->).
  - simpl in Hrest. injection Hrest as <- <- <-.
    destruct (dispatch_is_logged self _ _ _ _ _ Hd) as (_ & _ & -> & log & Hlog & ->).
    destruct Hs as [Hmax Hlen].
    eapply deliver_bounded; [done..|]. by apply last_filter_notified.
  - destruct (dispatch_all_refs _ _ _ _ _ _ Hd) as [Hsubs _].
    assert (∃ s1, heap1 !! sub = Some s1 ∧
              deque.maxlen (_queue s1) = Some 1 ∧ length (Subscription.pending s1) ≤ 1)
      as (s1 & Hs1 & HP1).
    { eapply (dispatch_lookup_keeps
                (λ s, deque.maxlen (_queue s) = Some 1 ∧
                      length (Subscription.pending s) ≤ 1)); [|exact Hd|exact Hsub|exact Hs].
      intros s0 st0 [Hmax Hlen]. rewrite _notify_maxlen, _notify_bounded by done.
      simpl. split; [done|lia]. }
    eapply (IH self1 heap1); [by rewrite Hsubs|done..].
Qed.

(** After dispatches that all return, an unbounded queue has gained
    their notifications, in order. *)
Lemma dispatch_all_unbounded actions : ∀ self heap sub s sts self2 heap2,
  NoDup (all_refs self) →
  sub ∈ _subscriptions self →
  heap !! sub = Some s →
  deque.maxlen (_queue s) = None →
  dispatch_all self actions heap = (Ok sts, self2, heap2) →
  pending_of sub heap2 = Some (Subscription.pending s ++ zip sts actions).
Proof.
  induction actions as [|action actions IH];
    intros self heap sub s sts self2 heap2 Hnodup Hin Hsub Hmax Hall.
  - injection Hall as <- <- <-. unfold pending_of. rewrite Hsub. simpl.
    by rewrite app_nil_r.
  - apply dispatch_all_cons_Ok in Hall as (st & self1 & heap1 & sts' & Hd & Hrest & ->).
    destruct (dispatch_all_refs _ _ _ _ _ _ Hd) as [Hsubs Hrefs].
    pose proof (dispatch_lookup_live _ _ _ _ _ _ sub Hnodup Hd Hin) as Hsub1.
    rewrite Hsub in Hsub1. simpl in Hsub1.
    rewrite (IH self1 heap1 sub (Subscription._notify s st action) sts' self2 heap2).
    + rewrite _notify_unbounded by done. simpl. by rewrite <- app_assoc.
    + by rewrite Hrefs.
    + by rewrite Hsubs.
    + exact Hsub1.
    + by rewrite _notify_maxlen.
    + exact Hrest.
Qed.

Lemma step_latest_bounded (w : Store * Heap) (o : op) :
  Forall latest_bounded w.2 → Forall latest_bounded (step w o).2.
Proof.
  destruct w as [self heap]. simpl. intros Hheap. destruct o as [action|strategy|sub|sub]; simpl.
  - destruct (Store.dispatch self action heap) as [[r self'] heap'] eqn:Hd. simpl.
    eapply dispatch_Forall; [|exact Hd|exact Hheap].
    intros s st. apply _notify_latest_bounded.
  - apply Forall_app. split; [done|]. apply Forall_singleton, __init___latest_bounded.
  - done.
  - unfold read. destruct (heap !! sub) as [s|] eqn:Hsub; [|done].
    pose proof (__anext___latest_bounded s) as Hnext.
    destruct (Subscription.__anext__ s) as [p s']. simpl in *.
    apply Forall_insert; [done|]. apply Hnext.
    rewrite Forall_lookup in Hheap. by eapply Hheap.
Qed.

Lemma run_latest_bounded ops (w : Store * Heap) :
  Forall latest_bounded w.2 → Forall latest_bounded (run ops w).2.
Proof.
  unfold run. revert w. induction ops as [|o ops IH]; intros w Hw; [done|].
  simpl. by apply IH, step_latest_bounded.
Qed.
End across_dispatches.

(** ** The claims on subscriptions *)

Section subscription_claims.
Context `{Types}.

Lemma substore_refs_set_subscriptions (self : Store) subs :
  substore_refs (set_subscriptions self subs) = substore_refs self.
Proof. by destruct self. Qed.

Lemma _subscriptions_set_subscriptions (self : Store) subs :
  _subscriptions (set_subscriptions self subs) = subs.
Proof. by destruct self. Qed.

Lemma state_set_subscriptions (self : Store) subs :
  state (set_subscriptions self subs) = state self.
Proof. by destruct self. Qed.

(** What [subscribe] has done when it yields. *)
Lemma subscribe_yields (self : Store) strategy (heap : Heap) :
  ∃ self1,
    Store.subscribe self strategy heap =
      (length heap, self1, heap ++ [Subscription.__init__ strategy]) ∧
    length heap ∈ _subscriptions self1 ∧
    substore_refs self1 = substore_refs self ∧
    (length heap ∉ _subscriptions self →
     _subscriptions self1 = _subscriptions self ++ [length heap]).
Proof.
  unfold Store.subscribe. eexists. split; [done|].
  rewrite _subscriptions_set_subscriptions, substore_refs_set_subscriptions.
  unfold dict_set. split_and!; [|done|].
  - case_decide; [done|]. apply elem_of_app. right. by apply list_elem_of_singleton.
  - intros Hfresh. by case_decide.
Qed.

(** C3.  Whatever is done with a store (dispatches, subscriptions
    entered and left, reads), a LATEST subscription never has more
    than one notification pending, and a notification pushed to it
    replaces the pending one; a LATEST subscription that is not read
    holds, after N dispatches, exactly the notification of the Nth:
    the state the store then has and the last action. *)
Theorem C3_latest_keeps_only_the_last (self : Store) :
  (∀ ops,
     Forall (λ s, _strategy s = LATEST → length (Subscription.pending s) ≤ 1)
       (run ops (self, [])).2) ∧
  (∀ ops sub s st action,
     (run ops (self, [])).2 !! sub = Some s → _strategy s = LATEST →
     Subscription.pending (Subscription._notify s st action) = [(st, action)]) ∧
  (∀ heap actions action,
     let '(sub, self1, heap1) := Store.subscribe self LATEST heap in
     ∀ sts self2 heap2,
       dispatch_all self1 (actions ++ [action]) heap1 = (Ok sts, self2, heap2) →
       pending_of sub heap2 = Some [(state self2, action)]).
Proof.
  assert (∀ ops, Forall latest_bounded (run ops (self, [])).2) as Hinv.
  { intros ops. by apply run_latest_bounded. }
  split_and!.
  - intros ops. eapply Forall_impl; [apply Hinv|]. intros s Hs Hlatest.
    by destruct (Hs Hlatest).
  - intros ops sub s st action Hsub Hlatest. specialize (Hinv ops).
    rewrite Forall_lookup in Hinv. destruct (Hinv _ _ Hsub Hlatest).
    by apply _notify_bounded.
  - intros heap actions action.
    destruct (subscribe_yields self LATEST heap) as (self1 & -> & Hin & _).
    intros sts self2 heap2 Hall.
    eapply dispatch_all_bounded; [exact Hin| |split|exact Hall].
    + by apply list_lookup_middle.
    + done.
    + simpl. lia.
Qed.

(** C4.  An EVERY subscription receives every notification: after N
    dispatches that return, it has pending the N pairs of the state
    each dispatch returned and its action, in the order of the
    dispatches, and N reads yield exactly these, in that order, and
    leave nothing pending. *)
Theorem C4_every_delivers_all_in_order (self : Store) (heap : Heap) actions :
  NoDup (all_refs self) →
  Forall (λ sub, sub < length heap) (all_refs self) →
  let '(sub, self1, heap1) := Store.subscribe self EVERY heap in
  ∀ sts self2 heap2,
    dispatch_all self1 actions heap1 = (Ok sts, self2, heap2) →
    length sts = length actions ∧
    pending_of sub heap2 = Some (zip sts actions) ∧
    (read_n (length actions) sub heap2).1 = Ready <$> zip sts actions ∧
    pending_of sub (read_n (length actions) sub heap2).2 = Some [].
Proof.
  intros Hnodup Hbound.
  assert (length heap ∉ all_refs self) as Hfresh.
  { intros Hin. rewrite Forall_forall in Hbound. specialize (Hbound _ Hin). lia. }
  destruct (subscribe_yields self EVERY heap) as (self1 & -> & Hin & Hrefs & Hsubs).
  unfold all_refs in Hfresh. apply not_elem_of_app in Hfresh as [Hfresh1 Hfresh2].
  specialize (Hsubs Hfresh1).
  intros sts self2 heap2 Hall.
  pose proof (dispatch_all_length _ _ _ _ _ _ Hall) as Hlen.
  assert (pending_of (length heap) heap2 = Some (zip sts actions)) as Hpending.
  { rewrite (dispatch_all_unbounded actions self1
               (heap ++ [Subscription.__init__ EVERY]) (length heap)
               (Subscription.__init__ EVERY) sts self2 heap2).
    - done.
    - unfold all_refs in *. rewrite Hsubs, Hrefs, <- app_assoc. simpl.
      apply NoDup_app in Hnodup as (Hnd1 & Hdisj & Hnd2).
      apply NoDup_app. split_and!; [done| |].
      + intros sub Hsub [->|Hsub']%elem_of_cons; [done|]. by eapply Hdisj.
      + by apply NoDup_cons.
    - exact Hin.
    - by apply list_lookup_middle.
    - done.
    - exact Hall. }
  destruct (dispatch_all_lookup_keeps (λ s, awaiting s = false) actions self1
              (heap ++ [Subscription.__init__ EVERY]) (length heap)
              (Subscription.__init__ EVERY)) as (s & Hs & Hawait);
    [done|by apply list_lookup_middle|done|].
  rewrite Hall in Hs. simpl in Hs.
  assert (wakes_up s) as Hwakes by (intros Htrue; congruence).
  split_and!; [done..| |].
  - unfold pending_of in Hpending. rewrite Hs in Hpending. injection Hpending as Hp.
    replace (length actions) with (length (zip sts actions))
      by (rewrite length_zip_with; lia).
    by eapply read_n_pending.
  - unfold pending_of in Hpending. rewrite Hs in Hpending. injection Hpending as Hp.
    replace (length actions) with (length (zip sts actions))
      by (rewrite length_zip_with; lia).
    by eapply read_n_pending.
Qed.

(** Leaving the body of [with store.subscribe(...)] without an exception
    removes the subscription from the store. *)
Lemma with_subscribe_exit_unsubscribes {A} (self : Store) strategy
    (body : SubRef → Store → Heap → Completion A * Store * Heap) (heap : Heap)
    c self' heap' :
  with_subscribe self strategy body heap = (c, self', heap') →
  (∀ e, c ≠ Raised e) →
  length heap ∉ _subscriptions self'.
Proof.
  unfold with_subscribe, Store.subscribe.
  destruct (body _ _ _) as [[c1 self1] heap1].
  unfold Store.subscribe_resume, dict_del.
  destruct c1 as [v|v|e].
  - case_decide; intros [= <- <- <-] Hc; [|by destruct (Hc (KeyError "subscription"))].
    rewrite _subscriptions_set_subscriptions. intros [Hne _]%list_elem_of_filter. done.
  - case_decide; intros [= <- <- <-] Hc; [|by destruct (Hc (KeyError "subscription"))].
    rewrite _subscriptions_set_subscriptions. intros [Hne _]%list_elem_of_filter. done.
  - intros [= <- <- <-] Hc. by destruct (Hc e).
Qed.
End subscription_claims.

(** ** Construction and the guard of handlers *)

Section construction_claims.
Context `{Types}.

(** C6.  Constructing a store of a class without a class-level state
    and without an initial state raises the error "Initial state must
    be provided"; with an initial state the construction succeeds,
    whatever the class-level state is, and the state of the store is
    the supplied one; without one, the class-level state is used. *)
Theorem C6_initial_state class_state body :
  Store.__init__ (plain_class None body) None =
    Raise (TypeError "Initial state must be provided") ∧
  (∀ initial_state, ∃ self,
     Store.__init__ (plain_class class_state body) (Some initial_state) = Ok self ∧
     state self = initial_state) ∧
  (∀ st, ∃ self,
     Store.__init__ (plain_class (Some st) body) None = Ok self ∧ state self = st).
Proof.
  split_and!.
  - done.
  - intros initial_state. eexists. by split.
  - intros st. eexists. by split.
Qed.

(** C7, as amended.  A handler called on a store without a true
    [__dispatch__] keyword raises "Do not call reducers directly; use
    Store.dispatch"; called on anything that is not a store it raises
    "@reducer must be applied to methods of a Store", whatever the
    keyword; called on a store with [__dispatch__=True], as the loop
    of [_compute_state] calls it, it runs the function on the state
    of the store. *)
Theorem C7_handler_guard (func : Method) (action : ActionT) :
  (∀ self : Store,
     _wrapper func (a_Store self) action None =
       Raise (TypeError "Do not call reducers directly; use Store.dispatch") ∧
     _wrapper func (a_Store self) action (Some false) =
       Raise (TypeError "Do not call reducers directly; use Store.dispatch") ∧
     _wrapper func (a_Store self) action (Some true) = func (state self) action) ∧
  (∀ __dispatch__,
     _wrapper func not_a_Store action __dispatch__ =
       Raise (TypeError "@reducer must be applied to methods of a Store")) ∧
  (∀ action_type reducers (self : Store),
     isinstance action action_type = true →
     Store.for_reducers ((action_type, func) :: reducers) self action =
       match _wrapper func (a_Store self) action (Some true) with
       | Ok st => Store.for_reducers reducers (_set_state self st) action
       | Raise e => (Raise e, self)
       end).
Proof.
  split_and!; [done..|]. intros action_type reducers self Hmatch. simpl. by rewrite Hmatch.
Qed.
End construction_claims.

(** ** Combined stores *)

Section combined_claims.
Context `{Types}.

Lemma for_substores_forwarded items : ∀ action heap sts items' heap',
  combined_store.for_substores Store.dispatch items action heap = (Ok sts, items', heap') →
  forwarded action heap items items' heap' ∧ sts = substates items'.
Proof.
  induction items as [|[name substore] items IH]; intros action heap sts items' heap'.
  - simpl. intros [= <- <- <-]. split; [constructor|done].
  - simpl.
    destruct (Store.dispatch substore action heap) as [[[st|e] substore'] heap1] eqn:Hd;
      [|done].
    destruct (combined_store.for_substores Store.dispatch items action heap1)
      as [[[sts'|e] items1] heap2] eqn:Hrest; [|done].
    simpl. intros [= <- <- <-]. destruct (IH _ _ _ _ _ Hrest) as [Hfwd ->]. split.
    + by econstructor.
    + simpl. by rewrite (dispatch_returns_state _ _ _ _ _ _ Hd).
Qed.

(** What [Store.__init__] makes of a combined class: its state is
    [combine_states] of the states of the substores it has made. *)
Lemma combined_init_state class_state body combine_states kwargs initial_state self :
  Store.__init__ (combined_class class_state body combine_states kwargs) initial_state
    = Ok self →
  ∃ reds substores,
    self = Combined (state self) [] reds combine_states substores ∧
    substores.*1 = kwargs.*1 ∧
    combine_states (substates substores) = Ok (state self).
Proof.
  simpl. unfold combined_store._initialize_state.
  assert (∀ items r,
    combined_store.for_kwargs Store.__init__ items initial_state = Ok r →
    r.2 = substates r.1 ∧ r.1.*1 = items.*1) as Hkw.
  { induction items as [|[name cls] items IH]; intros r.
    - by intros [= <-].
    - cbn [combined_store.for_kwargs].
      destruct (match initial_state with
                | Some st =>
                    match getattr st name with
                    | Ok value => Ok (Some value)
                    | Raise (AttributeError e) => Raise (TypeError e)
                    | Raise e => Raise e
                    end
                | None => Ok None
                end) as [initial_substate|e]; [|done].
      simpl. destruct (Store.__init__ cls initial_substate) as [substore|e]; [|done].
      simpl. destruct (combined_store.for_kwargs Store.__init__ items initial_state)
        as [[substores sts]|e]; [|done].
      simpl. intros [= <-]. destruct (IH _ eq_refl) as [Hsts Hnames]. simpl in *.
      split; [by rewrite Hsts|f_equal; exact Hnames]. }
  destruct (combined_store.for_kwargs Store.__init__ kwargs initial_state)
    as [[substores sts]|e] eqn:Hfor; [|done].
  destruct (Hkw _ _ Hfor) as [Hsts Hnames]. simpl in *. subst sts.
  destruct (combine_states (substates substores)) as [st|e] eqn:Hcombine; [|done].
  simpl. intros [= <-]. simpl. by eexists _, _.
Qed.

(** C8.  A dispatch into a combined store that returns has dispatched
    the same action into each substore, in the order of the
    [_substores] dict, and the state it leaves, which it returns, is
    [combine_states] of the states the substores then have, by name;
    the subscriptions of the combined store are then notified with
    it. *)
Theorem C8_combined_dispatch st subs reds combine substores action heap st' self' heap' :
  Store.dispatch (Combined st subs reds combine substores) action heap
    = (Ok st', self', heap') →
  ∃ substores' heap1,
    forwarded action heap substores substores' heap1 ∧
    self' = Combined st' subs reds combine substores' ∧
    state self' = st' ∧
    combine (substates substores') = Ok st' ∧
    heap' = notify_all subs st' action heap1.
Proof.
  rewrite dispatch_unfold. simpl.
  destruct (combined_store.for_substores Store.dispatch substores action heap)
    as [[[sts|e] substores1] heap1] eqn:Hfor; [|done].
  simpl. destruct (combine sts) as [st1|e] eqn:Hcombine; [|done].
  simpl. intros [= <- <- <-].
  destruct (for_substores_forwarded _ _ _ _ _ _ Hfor) as [Hfwd ->].
  by exists substores1, heap1.
Qed.
End combined_claims.

(** ** The order of names *)

Section names.
Import OrderedTypeEx.

Lemma ltb_lt (x y : string) : String.ltb x y = true ↔ String_as_OT.lt x y.
Proof.
  unfold String.ltb. rewrite <- String_as_OT.cmp_lt. unfold String_as_OT.cmp.
  by destruct (String.compare x y).
Qed.

Lemma leb_lt_eq (x y : string) : String.leb x y = true ↔ String_as_OT.lt x y ∨ x = y.
Proof.
  unfold String.leb. rewrite <- String_as_OT.cmp_lt, <- String_as_OT.cmp_eq.
  unfold String_as_OT.cmp. destruct (String.compare x y); intuition congruence.
Qed.

Lemma leb_trans (x y z : string) :
  String.leb x y = true → String.leb y z = true → String.leb x z = true.
Proof.
  rewrite !leb_lt_eq. intros [Hxy| ->] [Hyz| ->]; auto.
  left. by eapply String_as_OT.lt_trans.
Qed.

Lemma ltb_leb_ne (x y : string) : String.ltb x y = true ↔ String.leb x y = true ∧ x ≠ y.
Proof.
  rewrite ltb_lt, leb_lt_eq. split.
  - intros Hlt. split; [by left|]. by apply String_as_OT.lt_not_eq.
  - by intros [[Hlt|Heq] Hne].
Qed.
End names.

Section members.
Context `{Types}.
Implicit Types (members defs : list (string * Member)).

Global Instance name_le_total : Total name_le.
Proof. intros x y. apply String.leb_total. Qed.

Global Instance name_le_trans : Transitive name_le.
Proof. intros x y z. apply leb_trans. Qed.

(** [getmembers] lists the names of the namespace, each once, in
    ascending order. *)
Lemma getmembers_Permutation defs : getmembers defs ≡ₚ map_to_list (namespace defs).
Proof. apply merge_sort_Permutation. Qed.

Lemma getmembers_elem_of defs name member :
  (name, member) ∈ getmembers defs ↔ namespace defs !! name = Some member.
Proof. by rewrite getmembers_Permutation, elem_of_map_to_list. Qed.

Lemma getmembers_NoDup defs : NoDup (getmembers defs).*1.
Proof. rewrite getmembers_Permutation. apply NoDup_fst_map_to_list. Qed.

Lemma sorted_names members :
  StronglySorted name_le members → NoDup members.*1 →
  StronglySorted name_lt members.*1.
Proof.
  induction 1 as [|[name member] members Hsorted IH Hall]; [constructor|].
  simpl. intros [Hnotin Hnodup]%NoDup_cons. constructor; [by apply IH|].
  apply Forall_fmap, Forall_forall. intros [name' member'] Hin.
  rewrite Forall_forall in Hall. specialize (Hall _ Hin).
  unfold name_le, name_lt in *. simpl in *. apply ltb_leb_ne. split; [done|].
  intros ->. apply Hnotin, list_elem_of_fmap. by exists (name', member').
Qed.

Lemma getmembers_sorted defs : StronglySorted name_lt (getmembers defs).*1.
Proof.
  apply sorted_names; [|apply getmembers_NoDup].
  unfold getmembers. apply (StronglySorted_merge_sort _).
Qed.

(** The registry is the handlers among the members, in their order. *)
Lemma registry_handlers members : registry members = (handlers members).*2.
Proof.
  unfold registry, handlers.
  induction members as [|[name member] members IH]; [done|].
  destruct member; cbn; [exact IH..|]. f_equal. exact IH.
Qed.

Lemma handlers_elem_of members name entry :
  (name, entry) ∈ handlers members ↔ (name, ReducerMethod entry.1 entry.2) ∈ members.
Proof.
  unfold handlers. rewrite list_elem_of_omap. split.
  - intros ([name' member] & Hin & Hsome). destruct member; simplify_eq. done.
  - intros Hin. eexists. split; [exact Hin|]. by destruct entry.
Qed.

Lemma handlers_sorted members :
  StronglySorted name_lt members.*1 → StronglySorted name_lt (handlers members).*1.
Proof.
  induction members as [|[name member] members IH]; [done|].
  simpl. intros [Hall Hsorted]%StronglySorted_cons.
  assert (StronglySorted name_lt ((name, member) :: members).*1 →
          Forall (name_lt name) (handlers members).*1) as Hhead.
  { intros _. apply Forall_fmap, Forall_forall. intros [name' entry] Hin.
    apply handlers_elem_of in Hin. simpl.
    rewrite Forall_forall in Hall. apply Hall, list_elem_of_fmap. by eexists (_, _). }
  unfold handlers in *. simpl.
  destruct member; simpl; auto. constructor; [by apply IH|].
  apply Hhead. by constructor.
Qed.
End members.

(** ** The registry *)

Section registry_claims.
Context `{Types}.
Implicit Types (members defs body : list (string * Member)).

(** The namespace keeps, for each name, its last definition. *)
Lemma namespace_list_to_map defs : namespace defs = list_to_map (reverse defs).
Proof.
  unfold namespace. induction defs as [|[name member] defs IH] using rev_ind; [done|].
  by rewrite foldl_app, reverse_app, IH.
Qed.

(** Distinct names defined in another order give the same namespace. *)
Lemma namespace_Permutation before body body' after :
  NoDup body.*1 → body ≡ₚ body' →
  namespace (before ++ body ++ after) = namespace (before ++ body' ++ after).
Proof.
  intros Hnodup Hperm. rewrite !namespace_list_to_map, !reverse_app, !list_to_map_app.
  f_equal. f_equal. apply list_to_map_proper.
  - by rewrite fmap_reverse, reverse_Permutation.
  - by rewrite !reverse_Permutation.
Qed.

Lemma __init___reducers cls initial_state (self : Store) :
  Store.__init__ cls initial_state = Ok self →
  _reducers self = registry (members_of cls).
Proof.
  destruct cls as [class_state body|class_state body combine_states kwargs]; simpl.
  - destruct (Store._initialize_state class_state initial_state); [|done].
    by intros [= <-].
  - destruct (combined_store._initialize_state _ _ _ _) as [[substores st]|e]; [|done].
    by intros [= <-].
Qed.

(** C10.  The registry of a store is made of the handlers of its
    class (the names bound to a reducer method in its namespace), in
    ascending order of their names; it is the same for every store of
    the class, and the same for a class whose body has the same
    definitions in another order. *)
Theorem C10_registry_in_name_order (cls : StoreClass) initial_state (self : Store) :
  Store.__init__ cls initial_state = Ok self →
  _reducers self = (handlers (members_of cls)).*2 ∧
  StronglySorted name_lt (handlers (members_of cls)).*1 ∧
  (∀ name entry,
     (name, entry) ∈ handlers (members_of cls) ↔
     namespace (Store_methods ++ class_body cls ++ instance_attributes) !! name
       = Some (ReducerMethod entry.1 entry.2)) ∧
  (∀ initial_state' (self' : Store),
     Store.__init__ cls initial_state' = Ok self' → _reducers self' = _reducers self) ∧
  (∀ class_state body body' (self' : Store),
     cls = plain_class class_state body →
     NoDup body.*1 → body ≡ₚ body' →
     Store.__init__ (plain_class class_state body') initial_state = Ok self' →
     _reducers self' = _reducers self).
Proof.
  intros Hinit. pose proof (__init___reducers _ _ _ Hinit) as Hreds. split_and!.
  - by rewrite Hreds, registry_handlers.
  - apply handlers_sorted, getmembers_sorted.
  - intros name entry. unfold members_of. by rewrite handlers_elem_of, getmembers_elem_of.
  - intros initial_state' self' Hinit'.
    by rewrite Hreds, (__init___reducers _ _ _ Hinit').
  - intros class_state body body' self' -> Hnodup Hperm Hinit'.
    rewrite Hreds, (__init___reducers _ _ _ Hinit'). unfold members_of, getmembers.
    cbn [class_body].
    by rewrite (namespace_Permutation Store_methods body body' instance_attributes).
Qed.
End registry_claims.

(** ** Stores as they come to be

    A store as [Store.__init__] makes it has no subscription, and
    whatever is then done with it, the subscriptions its tree refers
    to are distinct objects of the heap. *)

Section reachable.
Context `{Types}.

Lemma __init___all_refs cls : ∀ initial_state (self : Store),
  Store.__init__ cls initial_state = Ok self → all_refs self = [].
Proof.
  induction cls as [class_state body|class_state body combine kwargs IH]
    using StoreClass_tree_ind; intros initial_state self; simpl.
  - destruct (Store._initialize_state class_state initial_state); [|done].
    by intros [= <-].
  - unfold combined_store._initialize_state.
    assert (∀ r, combined_store.for_kwargs Store.__init__ kwargs initial_state = Ok r →
              flat_map (λ item, _subscriptions item.2 ++ substore_refs item.2) r.1 = [])
      as Hkw.
    { induction IH as [|[name cls] items Hcls _ IHitems]; intros r.
      - by intros [= <-].
      - cbn [combined_store.for_kwargs].
        destruct (match initial_state with
                  | Some st =>
                      match getattr st name with
                      | Ok value => Ok (Some value)
                      | Raise (AttributeError e) => Raise (TypeError e)
                      | Raise e => Raise e
                      end
                  | None => Ok None
                  end) as [initial_substate|e]; [|done].
        simpl. destruct (Store.__init__ cls initial_substate) as [substore|e] eqn:Hnew;
          [|done].
        simpl. destruct (combined_store.for_kwargs Store.__init__ items initial_state)
          as [[substores sts]|e]; [|done].
        simpl. intros [= <-]. simpl. specialize (IHitems _ eq_refl). simpl in IHitems.
        specialize (Hcls _ _ Hnew). unfold all_refs in Hcls.
        change (flat_map _ substores) with
          (flat_map (λ item : string * Store,
                       _subscriptions item.2 ++ substore_refs item.2) substores).
        by rewrite IHitems, app_nil_r. }
    destruct (combined_store.for_kwargs Store.__init__ kwargs initial_state)
      as [[substores sts]|e]; [|done].
    specialize (Hkw _ eq_refl). simpl in *.
    destruct (combine sts); [|done]. simpl. intros [= <-]. exact Hkw.
Qed.

Lemma step_well_formed (w : Store * Heap) (o : op) : well_formed w → well_formed (step w o).
Proof.
  destruct w as [self heap]. unfold well_formed. simpl. intros [Hnodup Hbound].
  destruct o as [action|strategy|sub|sub]; simpl.
  - destruct (Store.dispatch self action heap) as [[r self'] heap'] eqn:Hd. simpl.
    destruct (dispatch_all_refs _ _ _ _ _ _ Hd) as [_ ->].
    by rewrite (dispatch_length _ _ _ _ _ _ Hd).
  - unfold all_refs in *.
    rewrite _subscriptions_set_subscriptions, substore_refs_set_subscriptions.
    assert (length heap ∉ _subscriptions self ++ substore_refs self) as Hfresh.
    { intros Hin. rewrite Forall_forall in Hbound. specialize (Hbound _ Hin). lia. }
    apply not_elem_of_app in Hfresh as [Hfresh1 Hfresh2].
    unfold dict_set. rewrite decide_False by done. rewrite <- app_assoc. simpl.
    rewrite length_app. simpl. split.
    + apply NoDup_app in Hnodup as (Hnd1 & Hdisj & Hnd2).
      apply NoDup_app. split_and!; [done| |by apply NoDup_cons].
      intros sub Hsub [->|Hsub']%elem_of_cons; [done|]. by eapply Hdisj.
    + rewrite Forall_app in Hbound. destruct Hbound as [Hb1 Hb2].
      rewrite Forall_app, Forall_cons. split_and!; [|lia|].
      * eapply Forall_impl; [exact Hb1|]. simpl. lia.
      * eapply Forall_impl; [exact Hb2|]. simpl. lia.
  - unfold Store.subscribe_resume, dict_del. case_decide; [|done]. simpl.
    unfold all_refs in *.
    rewrite _subscriptions_set_subscriptions, substore_refs_set_subscriptions.
    apply NoDup_app in Hnodup as (Hnd1 & Hdisj & Hnd2).
    rewrite Forall_app in Hbound. destruct Hbound as [Hb1 Hb2]. split.
    + apply NoDup_app. split_and!; [by apply NoDup_filter| |done].
      intros sub' [_ Hsub']%list_elem_of_filter. by apply Hdisj.
    + rewrite Forall_app. split; [|done]. apply Forall_forall.
      intros sub' [_ Hsub']%list_elem_of_filter.
      rewrite Forall_forall in Hb1. by apply Hb1.
  - unfold read. destruct (heap !! sub) as [s|]; [|done].
    destruct (Subscription.__anext__ s) as [p s']. simpl. by rewrite length_insert.
Qed.

Lemma run_well_formed ops (w : Store * Heap) : well_formed w → well_formed (run ops w).
Proof.
  unfold run. revert w. induction ops as [|o ops IH]; intros w Hw; [done|].
  simpl. by apply IH, step_well_formed.
Qed.

Lemma _notify_as_subscribed (s : Subscription) st action :
  as_subscribed s → as_subscribed (Subscription._notify s st action).
Proof.
  intros Hs. pose proof (_notify_pending s st action Hs) as Hpending.
  unfold as_subscribed in *. rewrite _notify_strategy, _notify_maxlen.
  destruct (_strategy s); [|done]. destruct Hs as [Hmax _]. split; [done|].
  rewrite Hpending. simpl. lia.
Qed.

Lemma __anext___as_subscribed (s : Subscription) :
  as_subscribed s → as_subscribed (Subscription.__anext__ s).2.
Proof.
  intros Hs. destruct (__anext___cases s) as (Hstrat & Hmax & Hcases).
  unfold as_subscribed in *. rewrite Hstrat, Hmax.
  destruct (_strategy s); [|done]. destruct Hs as [Hmax' Hlen]. split; [done|].
  destruct Hcases as [[_ ->]|(x & _ & Hpending & _)]; [done|].
  rewrite Hpending in Hlen. simpl in Hlen. lia.
Qed.

Lemma step_as_subscribed (w : Store * Heap) (o : op) :
  Forall as_subscribed w.2 → Forall as_subscribed (step w o).2.
Proof.
  destruct w as [self heap]. simpl. intros Hheap. destruct o as [action|strategy|sub|sub]; simpl.
  - destruct (Store.dispatch self action heap) as [[r self'] heap'] eqn:Hd. simpl.
    eapply dispatch_Forall; [|exact Hd|exact Hheap].
    intros s st. apply _notify_as_subscribed.
  - apply Forall_app. split; [done|]. apply Forall_singleton.
    unfold as_subscribed. destruct strategy; simpl; [split; [done|lia]|done].
  - done.
  - unfold read. destruct (heap !! sub) as [s|] eqn:Hsub; [|done].
    pose proof (__anext___as_subscribed s) as Hnext.
    destruct (Subscription.__anext__ s) as [p s']. simpl in *.
    apply Forall_insert; [done|]. apply Hnext.
    rewrite Forall_lookup in Hheap. by eapply Hheap.
Qed.

(** Every subscription there is after any run from an empty heap is
    as [Subscription.__init__] and the methods make it. *)
Lemma run_as_subscribed ops (self : Store) :
  Forall as_subscribed (run ops (self, [])).2.
Proof.
  assert (∀ w, Forall as_subscribed w.2 → Forall as_subscribed (run ops w).2) as Hrun.
  { unfold run. induction ops as [|o ops IH]; intros w Hw; [done|].
    simpl. by apply IH, step_as_subscribed. }
  by apply Hrun.
Qed.

Lemma __init___well_formed cls initial_state (self : Store) ops :
  Store.__init__ cls initial_state = Ok self → well_formed (run ops (self, [])).
Proof.
  intros Hinit. apply run_well_formed. unfold well_formed. simpl.
  rewrite (__init___all_refs _ _ _ Hinit). split; constructor.
Qed.
End reachable.

(** * The test suite *)

Import Tests.

(** [test_initial_state], [test_set_initial_state] and
    [test_missing_initial_state_not_allowed]. *)
Example test_initial_state : Store.__init__ CounterStore None = Ok counter.
Proof. vm_compute. reflexivity. Qed.

Example test_set_initial_state :
  state <$> Store.__init__ CounterStore (Some (Int 42)) = Ok (Int 42).
Proof. vm_compute. reflexivity. Qed.

Example test_missing_initial_state_not_allowed :
  state <$> Store.__init__ NoInitialStateStore (Some (Int 42)) = Ok (Int 42) ∧
  Store.__init__ NoInitialStateStore None =
    Raise (TypeError "Initial state must be provided").
Proof. split; vm_compute; reflexivity. Qed.

(** [test_dispatch] and the counter scenario: [Increment],
    [Increment], [Decrement] from 0. *)
Example test_dispatch :
  (dispatch_all counter [Increment; Decrement] []).1.1 = Ok [Int 1; Int 0].
Proof. vm_compute. reflexivity. Qed.

Example test_subscribe_every :
  let '(sub, store, heap) := Store.subscribe counter EVERY [] in
  let '(r, store, heap) := dispatch_all store [Increment; Increment; Decrement] heap in
  state store = Int 1 ∧
  (read_n 4 sub heap).1 =
    [Ready (Int 1, Increment); Ready (Int 2, Increment); Ready (Int 1, Decrement); Pending].
Proof. vm_compute. done. Qed.

Example test_subscribe_latest :
  let '(sub, store, heap) := Store.subscribe counter LATEST [] in
  let '(r, store, heap) := dispatch_all store [Increment; Increment; Increment] heap in
  (read_n 2 sub heap).1 = [Ready (Int 3, Increment); Pending].
Proof. vm_compute. done. Qed.

(** [test_subscribe_ends]: the body of the [with] runs to its end. *)
Example test_subscribe_ends :
  let '(c, store, heap) := with_subscribe counter LATEST normal_body [] in
  let '(r, store, heap) := Store.dispatch store Increment heap in
  _subscriptions store = [] ∧ (read 0 heap).1 = Pending.
Proof. vm_compute. done. Qed.

(** [test_combined_store], [test_combined_store_initial_state] and
    [test_combined_store_bad_initial_state]. *)
Example test_combined_store_init : Store.__init__ CombinedStore None = Ok combined.
Proof. vm_compute. reflexivity. Qed.

Example test_combined_store :
  (dispatch_all combined [Increment; Decrement] []).1.1 =
    Ok [CombinedState (Int 1) (Int (-1)); CombinedState (Int 0) (Int 0)].
Proof. vm_compute. reflexivity. Qed.

Example test_combined_store_initial_state :
  (store ← Store.__init__ CombinedStore (Some (CombinedState (Int 42) (Int 24)));
   (Store.dispatch store Increment []).1.1) = Ok (CombinedState (Int 43) (Int 23)).
Proof. vm_compute. reflexivity. Qed.

Example test_combined_store_bad_initial_state :
  Store.__init__ CombinedStore (Some (_WrongState (Int 42) (Int 24))) =
    Raise (TypeError "mirror").
Proof. vm_compute. reflexivity. Qed.

(** [test_multiple_reducers] and [test_multiaction_reducer]. *)
Example test_multiple_reducers :
  (store ← Store.__init__ DoubleCounter None;
   (Store.dispatch store Increment []).1.1) = Ok (Int 2).
Proof. vm_compute. reflexivity. Qed.

Example test_multiaction_reducer :
  (store ← Store.__init__ ActionCounter None;
   (dispatch_all store [Increment; Decrement] []).1.1) = Ok [Int 1; Int 2].
Proof. vm_compute. reflexivity. Qed.

(** The registry of [CounterStore] has [decrement] before
    [increment], which the class defines in the other order. *)
Example CounterStore_registry_order :
  (_reducers counter).*1 = [[Decrement]; [Increment]] ∧
  (handlers (members_of CounterStore)).*1 = ["decrement"; "increment"] ∧
  (handlers (class_body CounterStore)).*1 = ["increment"; "decrement"].
Proof. vm_compute. done. Qed.

Example with_subscribe_early_return :
  let '(c, store, heap) := with_subscribe counter LATEST returning_body [] in
  let '(r, store, heap) := Store.dispatch store Increment heap in
  c = Returned () ∧ _subscriptions store = [] ∧ pending_of 0 heap = Some [].
Proof. vm_compute. done. Qed.

(** C5, where the code departs from it.  When the body of
    [with store.subscribe() as sub] raises, the exception leaves the
    [with] statement and the subscription is still in the store's
    [_subscriptions]: the next dispatch notifies it. *)
Theorem C5_error_exit_keeps_subscription :
  let '(c, store, heap) := with_subscribe counter LATEST raising_body [] in
  c = Raised (UserError "boom") ∧
  _subscriptions store = [0] ∧
  pending_of 0 heap = Some [] ∧
  let '(r, store, heap) := Store.dispatch store Increment heap in
  r = Ok (Int 1) ∧
  _subscriptions store = [0] ∧
  pending_of 0 heap = Some [(Int 1, Increment)].
Proof. vm_compute. done. Qed.

(** C7 as stated fails: a call of a handler that is not made by
    dispatch, but passes [__dispatch__=True] itself, runs the
    handler. *)
Lemma C7_direct_call_with_keyword_runs :
  _wrapper (add 1) (a_Store counter) Increment (Some true) = Ok (Int 1) ∧
  ¬ (∀ (func : Method) (self : Store) (action : action) (__dispatch__ : option bool),
       ∃ msg, _wrapper func (a_Store self) action __dispatch__ = Raise (TypeError msg)).
Proof.
  split; [done|]. intros Hall.
  by destruct (Hall (add 1) counter Increment (Some true)) as [msg Hmsg].
Qed.

(** ** Instances of the theorems *)

Lemma C1_no_match_instance :
  fold_reducers [([Increment], add 1)] (Int 0) Decrement = Ok (Int 0).
Proof.
  apply (proj2 (proj2 (C1_dispatch_is_left_fold (H:=types) (Int 0) [] [([Increment], add 1)]))).
  repeat constructor.
Defined.

Lemma C2_instance :
  NoDup (all_refs (Plain (Int 0) [0] (_reducers counter))) ∧
  pending_of 0
    (Store.dispatch (Plain (Int 0) [0] (_reducers counter)) Increment
       [Subscription._notify (Subscription.__init__ EVERY) (Int 5) Decrement]).2
  = Some [(Int 5, Decrement); (Int 1, Increment)].
Proof.
  assert (NoDup (all_refs (Plain (Int 0) [0] (_reducers counter)))) as Hnodup.
  { apply NoDup_singleton. }
  split; [exact Hnodup|].
  refine (proj2 (proj2 (proj2
            (proj1 (C2_dispatch_notifies_and_returns_state (H:=types)
                      (Plain (Int 0) [0] (_reducers counter)) Increment
                      [Subscription._notify (Subscription.__init__ EVERY) (Int 5) Decrement]
                      Hnodup)
               (Int 1) (Plain (Int 1) [0] (_reducers counter)) _ _)))
            0 (Subscription._notify (Subscription.__init__ EVERY) (Int 5) Decrement) _ _ _).
  - vm_compute. reflexivity.
  - apply list_elem_of_singleton. reflexivity.
  - reflexivity.
  - reflexivity.
Defined.

Lemma C3_instance :
  pending_of 0
    (dispatch_all (Plain (Int 0) [0] (_reducers counter))
       [Increment; Increment; Increment] [Subscription.__init__ LATEST]).2
  = Some [(Int 3, Increment)].
Proof.
  refine (proj2 (proj2 (C3_latest_keeps_only_the_last (H:=types) counter))
            [] [Increment; Increment] Increment
            [Int 1; Int 2; Int 3] (Plain (Int 3) [0] (_reducers counter)) _ _).
  vm_compute. reflexivity.
Defined.

Lemma C4_instance :
  NoDup (all_refs counter) ∧
  Forall (λ sub, sub < 0) (all_refs counter) ∧
  (length [Int 1; Int 2; Int 1] = 3 ∧
   pending_of 0
     (dispatch_all (Plain (Int 0) [0] (_reducers counter))
        [Increment; Increment; Decrement] [Subscription.__init__ EVERY]).2
   = Some [(Int 1, Increment); (Int 2, Increment); (Int 1, Decrement)] ∧
   (read_n 3 0
      (dispatch_all (Plain (Int 0) [0] (_reducers counter))
         [Increment; Increment; Decrement] [Subscription.__init__ EVERY]).2).1
   = [Ready (Int 1, Increment); Ready (Int 2, Increment); Ready (Int 1, Decrement)] ∧
   pending_of 0
     (read_n 3 0
        (dispatch_all (Plain (Int 0) [0] (_reducers counter))
           [Increment; Increment; Decrement] [Subscription.__init__ EVERY]).2).2
   = Some []).
Proof.
  assert (NoDup (all_refs counter)) as Hnodup by apply NoDup_nil_2.
  assert (Forall (λ sub, sub < 0) (all_refs counter)) as Hbound by apply List.Forall_nil.
  split; [exact Hnodup|]. split; [exact Hbound|].
  refine (C4_every_delivers_all_in_order (H:=types) counter [] [Increment; Increment; Decrement]
            Hnodup Hbound [Int 1; Int 2; Int 1] (Plain (Int 1) [0] (_reducers counter)) _ _).
  vm_compute. reflexivity.
Defined.

Lemma C7_instance :
  Store.for_reducers [([Increment], add 1)] counter Increment =
    match _wrapper (add 1) (a_Store counter) Increment (Some true) with
    | Ok st => Store.for_reducers [] (_set_state counter st) Increment
    | Raise e => (Raise e, counter)
    end.
Proof.
  apply (proj2 (proj2 (C7_handler_guard (H:=types) (add 1) Increment))). reflexivity.
Defined.

Lemma C8_instance :
  ∃ substores' heap1,
    forwarded Increment [] [("counter", counter); ("mirror", mirror)] substores' heap1 ∧
    (Store.dispatch combined Increment []).1.2 =
      Combined (CombinedState (Int 1) (Int (-1))) [] [] CombinedState_new substores' ∧
    state (Store.dispatch combined Increment []).1.2 = CombinedState (Int 1) (Int (-1)) ∧
    CombinedState_new (substates substores') = Ok (CombinedState (Int 1) (Int (-1))) ∧
    (Store.dispatch combined Increment []).2 =
      notify_all [] (CombinedState (Int 1) (Int (-1))) Increment heap1.
Proof.
  refine (C8_combined_dispatch (H:=types) (CombinedState (Int 0) (Int 0)) [] [] CombinedState_new
            [("counter", counter); ("mirror", mirror)] Increment []
            (CombinedState (Int 1) (Int (-1))) _ _ _).
  vm_compute. reflexivity.
Defined.

Lemma C9_instance :
  Store.dispatch
    (Plain (Int 0) [] ([([Increment], add 1)] ++ ([Increment], boom) :: [])) Increment []
  = (Raise (UserError "boom"),
     Plain (Int 1) [] ([([Increment], add 1)] ++ ([Increment], boom) :: []), []).
Proof.
  apply (C9_raising_reducer_keeps_partial_state (H:=types) (Int 0) [] [([Increment], add 1)]
           [Increment] boom [] Increment [] (Int 1) (UserError "boom"));
    reflexivity.
Defined.

Lemma C10_instance :
  Store.__init__ CounterStore None = Ok counter ∧
  _reducers counter = (handlers (members_of CounterStore)).*2 ∧
  StronglySorted name_lt (handlers (members_of CounterStore)).*1.
Proof.
  assert (Store.__init__ CounterStore None = Ok counter) as Hinit.
  { vm_compute. reflexivity. }
  split; [exact Hinit|].
  pose proof (C10_registry_in_name_order (H:=types) CounterStore None counter Hinit) as Hc.
  split; [exact (proj1 Hc)|exact (proj1 (proj2 Hc))].
Defined.

(** * Further properties *)

(** ** A subscription under pushes and reads *)

Section play.
Context `{Types}.
Implicit Types (s : Subscription) (events : list sub_event).

Lemma play_Push s n events :
  play s (Push n :: events) = play (Subscription._notify s n.1 n.2) events.
Proof. done. Qed.

Lemma play_Pop s events :
  play s (Pop :: events) =
    (match (Subscription.__anext__ s).1 with Ready n => [n] | Pending => [] end
       ++ (play (Subscription.__anext__ s).2 events).1,
     (play (Subscription.__anext__ s).2 events).2).
Proof.
  cbn [play]. destruct (Subscription.__anext__ s) as [[n|] s1]; cbn [fst snd];
    destruct (play s1 events); reflexivity.
Qed.

Lemma play_app s events1 events2 :
  play s (events1 ++ events2) =
    ((play s events1).1 ++ (play (play s events1).2 events2).1,
     (play (play s events1).2 events2).2).
Proof.
  revert s. induction events1 as [|[n|] events1 IH]; intros s.
  - simpl. by destruct (play s events2).
  - cbn [app]. rewrite !play_Push. apply IH.
  - cbn [app]. rewrite !play_Pop. cbn [fst snd]. rewrite IH. cbn [fst snd].
    by rewrite app_assoc.
Qed.

Lemma play_wakes_up events : ∀ s, wakes_up s → wakes_up (play s events).2.
Proof.
  induction events as [|[n|] events IH]; intros s Hs.
  - done.
  - rewrite play_Push. apply IH, _notify_wakes_up.
  - rewrite play_Pop. cbn [snd]. by apply IH, __anext___wakes_up.
Qed.

Lemma _notify_pair s (n : StateT * ActionT) :
  deque.maxlen (_queue s) = None →
  Subscription.pending (Subscription._notify s n.1 n.2) = Subscription.pending s ++ [n].
Proof. destruct n. apply _notify_unbounded. Qed.

Lemma play_unbounded events : ∀ s,
  wakes_up s →
  deque.maxlen (_queue s) = None →
  (play s events).1 ++ Subscription.pending (play s events).2 =
    Subscription.pending s ++ pushed events.
Proof.
  induction events as [|[n|] events IH]; intros s Hs Hmax.
  - simpl. by rewrite app_nil_r.
  - rewrite play_Push, IH; [|apply _notify_wakes_up|by rewrite _notify_maxlen].
    rewrite _notify_pair by done. by rewrite <- app_assoc.
  - rewrite play_Pop. cbn [fst snd].
    destruct (__anext___wakes_up s Hs) as [Hs' Hnext].
    destruct (__anext___cases s) as (_ & Hmax' & _). rewrite Hmax in Hmax'.
    destruct (Subscription.pending s) as [|x l] eqn:Hpending.
    + destruct Hnext as (-> & Hrest & _). cbn [app].
      rewrite IH by done. by rewrite Hrest.
    + destruct Hnext as (-> & Hrest & _).
      rewrite <- app_assoc, IH by done. by rewrite Hrest.
Qed.

(** X2.  An EVERY subscription loses, repeats and reorders nothing,
    however pushes and reads interleave: the notifications read so
    far, followed by those still pending, are the notifications
    pushed so far, in the order they were pushed. *)
Theorem X2_every_conserves_notifications events :
  (play (Subscription.__init__ EVERY) events).1
    ++ Subscription.pending (play (Subscription.__init__ EVERY) events).2
  = pushed events.
Proof. by rewrite play_unbounded. Qed.

Lemma play_bounded events : ∀ s,
  wakes_up s →
  deque.maxlen (_queue s) = Some 1 → length (Subscription.pending s) ≤ 1 →
  (play s events).1 ++ Subscription.pending (play s events).2
    `sublist_of` Subscription.pending s ++ pushed events ∧
  deque.maxlen (_queue (play s events).2) = Some 1 ∧
  length (Subscription.pending (play s events).2) ≤ 1 ∧
  (∀ x, Subscription.pending (play s events).2 = [x] →
        last (Subscription.pending s ++ pushed events) = Some x).
Proof.
  induction events as [|[n|] events IH]; intros s Hs Hmax Hlen.
  - simpl. rewrite app_nil_r. split_and!; [done..|]. by intros x ->.
  - rewrite play_Push.
    destruct (IH (Subscription._notify s n.1 n.2)) as (Hsub & Hmax' & Hlen' & Hlast).
    { apply _notify_wakes_up. }
    { by rewrite _notify_maxlen. }
    { rewrite _notify_bounded by done. simpl. lia. }
    rewrite _notify_bounded in Hsub, Hlast by done.
    replace (n.1, n.2) with n in * by by destruct n.
    split_and!; [|done..|].
    + cbn [pushed omap list_omap]. by apply sublist_inserts_l.
    + intros x Hx. cbn [pushed omap list_omap]. rewrite last_app.
      change (n :: omap _ events) with ([n] ++ pushed events). by rewrite (Hlast x Hx).
  - rewrite play_Pop. cbn [fst snd].
    destruct (__anext___wakes_up s Hs) as [Hs' Hnext].
    destruct (__anext___cases s) as (_ & Hmax' & _). rewrite Hmax in Hmax'.
    change (pushed (Pop :: events)) with (pushed events).
    destruct (Subscription.pending s) as [|x l] eqn:Hpending.
    + destruct Hnext as (-> & Hrest & _). cbn [app].
      destruct (IH (Subscription.__anext__ s).2) as (Hsub & Hmax'' & Hlen' & Hlast);
        [done|done|rewrite Hrest; simpl; lia|].
      rewrite Hrest in Hsub, Hlast. done.
    + destruct l as [|y l]; [|simpl in Hlen; lia].
      destruct Hnext as (-> & Hrest & _).
      destruct (IH (Subscription.__anext__ s).2) as (Hsub & Hmax'' & Hlen' & Hlast);
        [done|done|rewrite Hrest; simpl; lia|].
      rewrite Hrest in Hsub, Hlast. split_and!; [|done..|].
      * simpl. by apply sublist_skip.
      * intros z Hz. specialize (Hlast z Hz). rewrite last_app.
        simpl in Hlast. by rewrite Hlast.
Qed.

(** X3.  A LATEST subscription, however pushes and reads interleave:
    the notifications read are among those pushed, in the order they
    were pushed, each at most once; at most one notification is
    pending, and it is the last one pushed; a read that follows a push
    returns the notification of that push. *)
Theorem X3_latest_reads_most_recent events :
  (play (Subscription.__init__ LATEST) events).1 `sublist_of` pushed events ∧
  length (Subscription.pending (play (Subscription.__init__ LATEST) events).2) ≤ 1 ∧
  (∀ x, Subscription.pending (play (Subscription.__init__ LATEST) events).2 = [x] →
        last (pushed events) = Some x) ∧
  (∀ n, (play (Subscription.__init__ LATEST) (events ++ [Push n; Pop])).1 =
          (play (Subscription.__init__ LATEST) events).1 ++ [n]).
Proof.
  destruct (play_bounded events (Subscription.__init__ LATEST))
    as (Hsub & Hmax & Hlen & Hlast); [done|done|simpl; lia|].
  split_and!; [|done|exact Hlast|].
  - etrans; [|exact Hsub]. by apply sublist_inserts_r.
  - intros n. rewrite play_app. cbn [fst]. f_equal.
    rewrite play_Push, play_Pop. cbn [fst].
    destruct (__anext___wakes_up
      (Subscription._notify (play (Subscription.__init__ LATEST) events).2 n.1 n.2))
      as [_ Hnext]; [apply _notify_wakes_up|].
    rewrite _notify_bounded in Hnext by done. destruct Hnext as (-> & _).
    simpl. by destruct n.
Qed.
End play.

(** ** The wake-up signal *)

Section wake_up.
Context `{Types}.
Implicit Types (s : Subscription) (events : list sub_event).

Lemma play_queue_bound events : ∀ s,
  (deque.maxlen (_queue s) = None ∨
   deque.maxlen (_queue s) = Some 1 ∧ length (Subscription.pending s) ≤ 1) →
  deque.maxlen (_queue (play s events).2) = None ∨
  deque.maxlen (_queue (play s events).2) = Some 1 ∧
  length (Subscription.pending (play s events).2) ≤ 1.
Proof.
  induction events as [|[n|] events IH]; intros s Hmax.
  - done.
  - rewrite play_Push. apply IH. rewrite _notify_maxlen.
    destruct Hmax as [Hmax|[Hmax Hlen]]; [by left|right]. split; [done|].
    rewrite _notify_bounded by done. simpl. lia.
  - rewrite play_Pop. cbn [snd]. apply IH.
    destruct (__anext___cases s) as (_ & -> & Hcases).
    destruct Hmax as [Hmax|[Hmax Hlen]]; [by left|right]. split; [done|].
    destruct Hcases as [[_ ->]|(x & _ & Hx & _)]; [done|].
    rewrite Hx in Hlen. simpl in Hlen. lia.
Qed.

(** X4.  For a subscription of either strategy, however pushes and
    turns of its consumer interleave: a consumer suspended in
    [wait()] while a notification is pending waits on an event that is
    set, so it will run on; a turn of the consumer suspends exactly
    when nothing is pending, and otherwise returns the oldest pending
    notification; after a push the event is set and the next turn
    returns a notification; a suspended consumer that runs on and
    returns leaves a fresh event, not set. *)
Theorem X4_no_lost_wake_up strategy events :
  (awaiting (play (Subscription.__init__ strategy) events).2 = true →
   Subscription.pending (play (Subscription.__init__ strategy) events).2 ≠ [] →
   _notification_event (play (Subscription.__init__ strategy) events).2 = true) ∧
  ((Subscription.__anext__ (play (Subscription.__init__ strategy) events).2).1 = Pending ↔
   Subscription.pending (play (Subscription.__init__ strategy) events).2 = []) ∧
  (∀ x l,
     Subscription.pending (play (Subscription.__init__ strategy) events).2 = x :: l →
     (Subscription.__anext__ (play (Subscription.__init__ strategy) events).2).1 = Ready x) ∧
  (∀ st action,
     _notification_event
       (Subscription._notify (play (Subscription.__init__ strategy) events).2 st action)
       = true ∧
     (Subscription.__anext__
        (Subscription._notify (play (Subscription.__init__ strategy) events).2 st action)).1
       ≠ Pending) ∧
  (awaiting (play (Subscription.__init__ strategy) events).2 = true →
   Subscription.pending (play (Subscription.__init__ strategy) events).2 ≠ [] →
   _notification_event
     (Subscription.__anext__ (play (Subscription.__init__ strategy) events).2).2 = false).
Proof.
  assert (wakes_up (play (Subscription.__init__ strategy) events).2) as Hwakes.
  { by apply play_wakes_up. }
  destruct (play_queue_bound events (Subscription.__init__ strategy)) as [Hmax|[Hmax Hlen]].
  { destruct strategy; [right|left]; simpl; [split; [done|lia]|done]. }
  all: set (s := (play (Subscription.__init__ strategy) events).2) in *.
  all: destruct (__anext___wakes_up s Hwakes) as [_ Hnext].
  all: split_and!.
  all: try exact Hwakes.
  all: try (destruct (Subscription.pending s) as [|x l];
            [by destruct Hnext as (-> & _)|by destruct Hnext as (-> & _)]).
  all: try (intros x l Hx; rewrite Hx in Hnext; by destruct Hnext as (-> & _)).
  all: try (intros st action; split; [done|];
            destruct (__anext___wakes_up (Subscription._notify s st action)
                        (_notify_wakes_up s st action)) as [_ Hnext'];
            first [rewrite _notify_unbounded in Hnext' by done
                  |rewrite _notify_bounded in Hnext' by done];
            destruct (Subscription.pending s); simpl in Hnext';
            by destruct Hnext' as (-> & _)).
  all: intros Hawait Hne; specialize (Hwakes Hawait Hne);
       unfold Subscription.__anext__; rewrite Hawait, Hwakes;
       unfold Subscription.pending in Hne;
       destruct (deque.items (_queue s)) as [|x l] eqn:Hitems; [done|];
       by rewrite (__anext___loop_pop _ x l).
Qed.
End wake_up.

(** ** Stores and their subscribers *)

Section subscribers.
Context `{Types}.
Implicit Types (self : Store) (heap : Heap) (sub : SubRef).

Lemma dispatch_all_preserves actions : ∀ self heap r self' heap',
  dispatch_all self actions heap = (r, self', heap') →
  _subscriptions self' = _subscriptions self ∧
  all_refs self' = all_refs self ∧
  length heap' = length heap.
Proof.
  induction actions as [|action actions IH]; intros self heap r self' heap'.
  - by intros [= <- <- <-].
  - cbn [dispatch_all].
    destruct (Store.dispatch self action heap) as [[[st|e] self1] heap1] eqn:Hd.
    + destruct (dispatch_all self1 actions heap1) as [[r2 self2] heap2] eqn:Hrest.
      intros [= <- <- <-].
      destruct (IH _ _ _ _ _ Hrest) as (-> & -> & ->).
      destruct (dispatch_all_refs _ _ _ _ _ _ Hd) as [-> ->].
      by rewrite (dispatch_length _ _ _ _ _ _ Hd).
    + intros [= <- <- <-].
      destruct (dispatch_all_refs _ _ _ _ _ _ Hd) as [-> ->].
      by rewrite (dispatch_length _ _ _ _ _ _ Hd).
Qed.

Lemma dispatch_all_lookup_other actions : ∀ self heap sub,
  sub ∉ all_refs self →
  (dispatch_all self actions heap).2 !! sub = heap !! sub.
Proof.
  induction actions as [|action actions IH]; intros self heap sub Hsub; [done|].
  cbn [dispatch_all].
  destruct (Store.dispatch self action heap) as [[[st|e] self1] heap1] eqn:Hd.
  - specialize (IH self1 heap1 sub).
    destruct (dispatch_all self1 actions heap1) as [[r2 self2] heap2]. simpl in *.
    destruct (dispatch_all_refs _ _ _ _ _ _ Hd) as [_ Hrefs].
    rewrite IH by by rewrite Hrefs. by eapply dispatch_lookup_other.
  - simpl. by eapply dispatch_lookup_other.
Qed.

(** X5.  Subscribers of a store are independent.  Subscribing leaves
    the state of the store and the subscriptions there are as they
    were, and the new subscription starts with nothing pending,
    whatever was dispatched before; the next dispatch that returns
    pushes the same notification, once, to the subscription that was
    there and to the new one. *)
Theorem X5_subscribers_are_independent self heap strategy action sub1 s1 :
  well_formed (self, heap) →
  sub1 ∈ _subscriptions self →
  heap !! sub1 = Some s1 →
  let '(sub2, self1, heap1) := Store.subscribe self strategy heap in
  sub2 ≠ sub1 ∧
  state self1 = state self ∧
  heap1 !! sub1 = Some s1 ∧
  pending_of sub2 heap1 = Some [] ∧
  ∀ st self2 heap2,
    Store.dispatch self1 action heap1 = (Ok st, self2, heap2) →
    heap2 !! sub1 = Some (Subscription._notify s1 st action) ∧
    pending_of sub2 heap2 = Some [(st, action)].
Proof.
  intros Hwf Hin1 Hsub1.
  pose proof (step_well_formed (self, heap) (Subscribe strategy) Hwf) as Hwf1.
  unfold step in Hwf1. cbn [fst snd] in Hwf1.
  assert (length heap ∉ _subscriptions self) as Hfresh.
  { destruct Hwf as [_ Hbound]. simpl in Hbound. intros Hin.
    rewrite Forall_forall in Hbound. unfold all_refs in Hbound.
    specialize (Hbound (length heap)). rewrite elem_of_app in Hbound.
    specialize (Hbound (or_introl Hin)). lia. }
  destruct (subscribe_yields self strategy heap) as (self1 & Hyield & Hin2 & Hrefs & Hsubs).
  rewrite Hyield in Hwf1 |- *. destruct Hwf1 as [Hnodup _]. simpl in Hnodup.
  specialize (Hsubs Hfresh).
  assert (heap !! length heap = None) as Hnone by by apply lookup_ge_None.
  assert ((heap ++ [Subscription.__init__ strategy]) !! sub1 = Some s1) as Hsub1'.
  { by apply lookup_app_l_Some. }
  assert ((heap ++ [Subscription.__init__ strategy]) !! length heap
          = Some (Subscription.__init__ strategy)) as Hsub2.
  { by apply list_lookup_middle. }
  split_and!.
  - intros Heq. rewrite Heq in Hnone. congruence.
  - unfold Store.subscribe in Hyield. injection Hyield as <-.
    apply state_set_subscriptions.
  - done.
  - unfold pending_of. by rewrite Hsub2.
  - intros st self2 heap2 Hd. split.
    + rewrite (dispatch_lookup_live _ _ _ _ _ _ sub1 Hnodup Hd).
      * by rewrite Hsub1'.
      * rewrite Hsubs. apply elem_of_app. by left.
    + unfold pending_of.
      rewrite (dispatch_lookup_live _ _ _ _ _ _ (length heap) Hnodup Hd Hin2), Hsub2.
      simpl. f_equal. destruct strategy.
      * apply _notify_bounded; [done|simpl; lia].
      * by rewrite _notify_unbounded.
Qed.

(** X6.  When the body of [with store.subscribe(...)] has dispatched
    its actions and ends without an exception, the store has the
    subscriptions it had before the [with], and no dispatch made
    afterwards changes the subscription of the [with]: what it has
    pending then is all it will ever deliver. *)
Theorem X6_scope_exit_detaches self heap strategy actions self' heap' :
  well_formed (self, heap) →
  with_subscribe self strategy (dispatching actions) heap = (Normal (), self', heap') →
  _subscriptions self' = _subscriptions self ∧
  (length heap ∉ all_refs self') ∧
  ∀ later,
    (dispatch_all self' later heap').2 !! length heap = heap' !! length heap.
Proof.
  intros [Hnodup Hbound]. simpl in *.
  assert (length heap ∉ all_refs self) as Hfresh.
  { intros Hin. rewrite Forall_forall in Hbound. specialize (Hbound _ Hin). lia. }
  unfold all_refs in Hfresh. apply not_elem_of_app in Hfresh as [Hfresh1 Hfresh2].
  destruct (subscribe_yields self strategy heap) as (self1 & Hyield & Hin & Hrefs & Hsubs).
  specialize (Hsubs Hfresh1).
  unfold with_subscribe. rewrite Hyield. unfold dispatching.
  destruct (dispatch_all self1 actions _) as [[r self2] heap2] eqn:Hall.
  destruct (dispatch_all_preserves _ _ _ _ _ _ Hall) as (Hsubs2 & Hrefs2 & Hlen2).
  destruct r as [sts|e]; [|done].
  unfold Store.subscribe_resume, dict_del. case_decide as Hin2; [|done].
  intros [= <- <-].
  assert (substore_refs self2 = substore_refs self) as Hsubrefs.
  { unfold all_refs in Hrefs2. rewrite Hsubs2 in Hrefs2.
    apply app_inv_head in Hrefs2. by rewrite Hrefs2. }
  assert (filter (λ k, k ≠ length heap) (_subscriptions self2) = _subscriptions self)
    as Hfilter.
  { rewrite Hsubs2, Hsubs, filter_app, filter_cons, filter_nil.
    rewrite decide_False by (intros Hne; by apply Hne). rewrite app_nil_r.
    clear -Hfresh1. induction (_subscriptions self) as [|k subs IH]; [done|].
    apply not_elem_of_cons in Hfresh1 as [Hne Hfresh1].
    rewrite filter_cons, decide_True by done. by rewrite IH. }
  assert (length heap ∉ all_refs (set_subscriptions self2
            (filter (λ k, k ≠ length heap) (_subscriptions self2)))) as Hout.
  { unfold all_refs.
    rewrite _subscriptions_set_subscriptions, substore_refs_set_subscriptions.
    rewrite Hfilter, Hsubrefs. by apply not_elem_of_app. }
  split_and!.
  - by rewrite _subscriptions_set_subscriptions.
  - exact Hout.
  - intros later. by apply dispatch_all_lookup_other.
Qed.
End subscribers.

(** ** What a dispatch leaves alone *)

Section dispatch_frame.
Context `{Types}.
Implicit Types (self : Store) (heap : Heap) (sub : SubRef).

Lemma for_substores_names items : ∀ action heap r items' heap',
  combined_store.for_substores Store.dispatch items action heap = (r, items', heap') →
  items'.*1 = items.*1.
Proof.
  induction items as [|[name substore] items IH]; intros action heap r items' heap'.
  - simpl. by intros [= <- <- <-].
  - simpl.
    destruct (Store.dispatch substore action heap) as [[[st|e] substore'] heap1].
    + destruct (combined_store.for_substores Store.dispatch items action heap1)
        as [[r2 items2] heap2] eqn:Hrest.
      intros [= <- <- <-]. simpl. f_equal. by eapply IH.
    + by intros [= <- <- <-].
Qed.

(** X11.  A dispatch, whether it returns or raises, changes nothing
    of a store but states: the registry, the subscriptions of the
    store and of its substores and the names of the substores are as
    before; it creates and removes no subscription, and every
    subscription keeps its strategy and the bound of its queue. *)
Theorem X11_dispatch_changes_only_states self action heap r self' heap' :
  Store.dispatch self action heap = (r, self', heap') →
  _reducers self' = _reducers self ∧
  _subscriptions self' = _subscriptions self ∧
  all_refs self' = all_refs self ∧
  (_substores self').*1 = (_substores self).*1 ∧
  length heap' = length heap ∧
  ∀ sub s, heap !! sub = Some s →
    ∃ s', heap' !! sub = Some s' ∧
          _strategy s' = _strategy s ∧
          deque.maxlen (_queue s') = deque.maxlen (_queue s).
Proof.
  intros Hd. destruct (dispatch_all_refs _ _ _ _ _ _ Hd) as [Hsubs Hrefs].
  split_and!; [|done|done| |by eapply dispatch_length|].
  - revert Hd. rewrite dispatch_unfold. destruct self as [st subs reds|st subs reds c items].
    + simpl. unfold Store._compute_state. simpl.
      destruct (for_reducers_shape reds (Plain st subs reds) action) as [st' Hshape].
      destruct (Store.for_reducers reds _ action) as [[[]|e] self0]; simpl in Hshape;
        subst self0; by intros [= <- <- <-].
    + simpl. destruct (combined_store.for_substores _ items action heap)
        as [[[sts|e] items1] heap1]; simpl.
      * destruct (c sts); simpl; by intros [= <- <- <-].
      * by intros [= <- <- <-].
  - revert Hd. rewrite dispatch_unfold. destruct self as [st subs reds|st subs reds c items].
    + simpl. unfold Store._compute_state. simpl.
      destruct (for_reducers_shape reds (Plain st subs reds) action) as [st' Hshape].
      destruct (Store.for_reducers reds _ action) as [[[]|e] self0]; simpl in Hshape;
        subst self0; by intros [= <- <- <-].
    + simpl. destruct (combined_store.for_substores _ items action heap)
        as [[[sts|e] items1] heap1] eqn:Hfor; simpl;
        pose proof (for_substores_names _ _ _ _ _ _ Hfor) as Hnames.
      * destruct (c sts); simpl; by intros [= <- <- <-].
      * by intros [= <- <- <-].
  - intros sub s Hsub.
    destruct (dispatch_lookup_keeps
                (λ s', _strategy s' = _strategy s ∧
                       deque.maxlen (_queue s') = deque.maxlen (_queue s))
                self action heap r self' heap' sub s) as (s' & Hs' & Hkeep); [|done..|].
    + intros s0 st0 [Hstrat Hmax]. by rewrite _notify_strategy, _notify_maxlen.
    + by exists s'.
Qed.

(** X12.  Dispatches into a store, as many as there are and whether
    they return or raise, leave every subscription that is not one of
    the store or of its substores exactly as it was. *)
Theorem X12_dispatch_notifies_only_its_subscriptions self actions heap sub :
  sub ∉ all_refs self →
  (dispatch_all self actions heap).2 !! sub = heap !! sub.
Proof. apply dispatch_all_lookup_other. Qed.

Lemma for_reducers_Raise_inv reducers : ∀ self action e self',
  Store.for_reducers reducers self action = (Raise e, self') →
  ∃ action_type (reducer : Method),
    (action_type, reducer) ∈ reducers ∧
    isinstance action action_type = true ∧
    reducer (state self') action = Raise e.
Proof.
  induction reducers as [|[action_type reducer] reducers IH]; intros self action e self'.
  - done.
  - simpl. destruct (isinstance action action_type) eqn:Hmatch.
    + destruct (reducer (state self) action) as [st|e'] eqn:Hcall.
      * intros Hrest. destruct (IH _ _ _ _ Hrest) as (t & f & Hin & Ht & Hf).
        exists t, f. split_and!; [by apply elem_of_cons; right|done..].
      * intros [= <- <-]. exists action_type, reducer.
        split_and!; [by apply elem_of_cons; left|done..].
    + intros Hrest. destruct (IH _ _ _ _ Hrest) as (t & f & Hin & Ht & Hf).
      exists t, f. split_and!; [by apply elem_of_cons; right|done..].
Qed.

Lemma fold_reducers_total reducers action : ∀ st,
  Forall (λ entry : ActionType * Method,
            isinstance action entry.1 = true → ∀ st', is_Ok (entry.2 st' action) = true)
    reducers →
  ∃ st', fold_reducers reducers st action = Ok st'.
Proof.
  induction reducers as [|[action_type reducer] reducers IH]; intros st Hall.
  - by exists st.
  - apply Forall_cons in Hall as [Hhead Hall]. simpl in Hhead.
    rewrite fold_reducers_cons. destruct (isinstance action action_type); [|by apply IH].
    specialize (Hhead eq_refl st).
    destruct (reducer st action) as [st1|e]; [|done]. simpl. by apply IH.
Qed.

(** X13.  A dispatch into a plain store raises nothing of its own:
    when it raises, a handler of the registry that matches the action
    has raised that exception, on the state the store is left with,
    and no subscription has been notified; when the handlers that
    match the action never raise, the dispatch returns. *)
Theorem X13_dispatch_raises_what_a_handler_raises st subs reducers action heap :
  (∀ e self' heap',
     Store.dispatch (Plain st subs reducers) action heap = (Raise e, self', heap') →
     heap' = heap ∧
     ∃ action_type (reducer : Method),
       (action_type, reducer) ∈ reducers ∧
       isinstance action action_type = true ∧
       reducer (state self') action = Raise e) ∧
  (Forall (λ entry : ActionType * Method,
             isinstance action entry.1 = true → ∀ st', is_Ok (entry.2 st' action) = true)
     reducers →
   ∃ st', Store.dispatch (Plain st subs reducers) action heap =
            (Ok st', Plain st' subs reducers, notify_all subs st' action heap)).
Proof.
  split.
  - intros e self' heap'. rewrite dispatch_unfold. simpl. unfold Store._compute_state.
    simpl. destruct (Store.for_reducers reducers _ action) as [[[]|e'] self0] eqn:Hfor;
      [done|].
    intros [= <- <- <-]. split; [done|]. by eapply for_reducers_Raise_inv.
  - intros Hall. destruct (fold_reducers_total reducers action st Hall) as [st' Hfold].
    exists st'. by apply dispatch_plain_Ok.
Qed.
End dispatch_frame.

(** ** Combined stores: construction and failures *)

Section combined_more.
Context `{Types}.
Implicit Types (self : Store) (heap : Heap).

Lemma __init___plain_state class_state body (v : StateT) self :
  Store.__init__ (plain_class class_state body) (Some v) = Ok self → state self = v.
Proof. simpl. by intros [= <-]. Qed.

Lemma for_kwargs_made items : ∀ initial_state substores sts,
  combined_store.for_kwargs Store.__init__ items initial_state = Ok (substores, sts) →
  sts = substates substores ∧
  Forall2 (λ (item : string * Store) (kw : string * StoreClass),
             item.1 = kw.1 ∧
             match initial_state with
             | Some initial =>
                 ∃ v, getattr initial kw.1 = Ok v ∧
                      Store.__init__ kw.2 (Some v) = Ok item.2 ∧
                      ∀ class_state body, kw.2 = plain_class class_state body →
                                          state item.2 = v
             | None => Store.__init__ kw.2 None = Ok item.2
             end)
    substores items.
Proof.
  induction items as [|[name cls] items IH]; intros initial_state substores sts.
  - intros [= <- <-]. split; [done|constructor].
  - cbn [combined_store.for_kwargs]. destruct initial_state as [initial|].
    + destruct (getattr initial name) as [v|e] eqn:Hfield; [|by destruct e].
      simpl. destruct (Store.__init__ cls (Some v)) as [substore|e] eqn:Hnew; [|done].
      simpl. destruct (combined_store.for_kwargs Store.__init__ items (Some initial))
        as [[substores' sts']|e] eqn:Hrest; [|done].
      simpl. intros [= <- <-]. destruct (IH _ _ _ Hrest) as [-> Hall].
      split; [done|]. constructor; [|done]. split; [done|]. exists v.
      split_and!; [done..|]. simpl. intros class_state body Hcls. subst cls.
      by eapply __init___plain_state.
    + simpl. destruct (Store.__init__ cls None) as [substore|e] eqn:Hnew; [|done].
      simpl. destruct (combined_store.for_kwargs Store.__init__ items None)
        as [[substores' sts']|e] eqn:Hrest; [|done].
      simpl. intros [= <- <-]. destruct (IH _ _ _ Hrest) as [-> Hall].
      split; [done|]. by constructor.
Qed.

(** X7.  Constructing a combined store constructs one substore per
    keyword of [combined_store], in their order and under their names:
    from its own default when no initial state is given, and otherwise
    from the attribute of the initial state that has its name, which
    is then the state of a plain substore.  The state of the combined
    store is [combine_states] of the states of the substores, by name,
    whatever class-level state the class has, and nobody is subscribed
    to it. *)
Theorem X7_combined_construction class_state body combine kwargs initial_state self :
  Store.__init__ (combined_class class_state body combine kwargs) initial_state = Ok self →
  ∃ substores,
    self = Combined (state self) []
             (registry (members_of (combined_class class_state body combine kwargs)))
             combine substores ∧
    combine (substates substores) = Ok (state self) ∧
    Forall2 (λ (item : string * Store) (kw : string * StoreClass),
               item.1 = kw.1 ∧
               match initial_state with
               | Some initial =>
                   ∃ v, getattr initial kw.1 = Ok v ∧
                        Store.__init__ kw.2 (Some v) = Ok item.2 ∧
                        ∀ class_state body, kw.2 = plain_class class_state body →
                                            state item.2 = v
               | None => Store.__init__ kw.2 None = Ok item.2
               end)
      substores kwargs.
Proof.
  cbn [Store.__init__]. unfold combined_store._initialize_state.
  destruct (combined_store.for_kwargs Store.__init__ kwargs initial_state)
    as [[substores sts]|e] eqn:Hfor; [|done].
  destruct (for_kwargs_made _ _ _ _ Hfor) as [-> Hall]. simpl.
  destruct (combine (substates substores)) as [st|e] eqn:Hcombine; [|done].
  simpl. intros [= <-]. by exists substores.
Qed.

Lemma for_kwargs_app items1 items2 initial_state :
  combined_store.for_kwargs Store.__init__ (items1 ++ items2) initial_state =
    '(substores1, sts1) ← combined_store.for_kwargs Store.__init__ items1 initial_state;
    '(substores2, sts2) ← combined_store.for_kwargs Store.__init__ items2 initial_state;
    Ok (substores1 ++ substores2, sts1 ++ sts2).
Proof.
  induction items1 as [|[name cls] items1 IH].
  - simpl. by destruct (combined_store.for_kwargs Store.__init__ items2 initial_state)
      as [[??]|].
  - cbn [app combined_store.for_kwargs]. rewrite IH.
    destruct (match initial_state with
              | Some initial =>
                  match getattr initial name with
                  | Ok value => Ok (Some value)
                  | Raise (AttributeError e) => Raise (TypeError e)
                  | Raise e => Raise e
                  end
              | None => Ok None
              end) as [initial_substate|e]; [|done].
    simpl. destruct (Store.__init__ cls initial_substate) as [substore|e]; [|done].
    simpl. destruct (combined_store.for_kwargs Store.__init__ items1 initial_state)
      as [[substores1 sts1]|e]; [|done].
    simpl. by destruct (combined_store.for_kwargs Store.__init__ items2 initial_state)
      as [[substores2 sts2]|e].
Qed.

(** X8.  How the construction of a combined store fails, once the
    substores of the keywords before [name] are made: an initial
    state without the attribute [name] raises a [TypeError] with the
    message of the [AttributeError]; without an initial state, a
    plain substore class without a class-level state raises "Initial
    state must be provided"; an exception of the constructor of a
    substore, with or without an initial state, is raised as it is.
    When every substore is made, an exception of [combine_states] is
    raised as it is. *)
Theorem X8_combined_construction_failures
    class_state body combine before name cls after initial_state r :
  combined_store.for_kwargs Store.__init__ before initial_state = Ok r →
  (∀ initial msg,
     initial_state = Some initial →
     getattr initial name = Raise (AttributeError msg) →
     Store.__init__
       (combined_class class_state body combine (before ++ (name, cls) :: after))
       initial_state = Raise (TypeError msg)) ∧
  (∀ body',
     initial_state = None → cls = plain_class None body' →
     Store.__init__
       (combined_class class_state body combine (before ++ (name, cls) :: after))
       initial_state = Raise (TypeError "Initial state must be provided")) ∧
  (∀ initial v e,
     initial_state = Some initial →
     getattr initial name = Ok v →
     Store.__init__ cls (Some v) = Raise e →
     Store.__init__
       (combined_class class_state body combine (before ++ (name, cls) :: after))
       initial_state = Raise e) ∧
  (∀ e,
     initial_state = None →
     Store.__init__ cls None = Raise e →
     Store.__init__
       (combined_class class_state body combine (before ++ (name, cls) :: after))
       initial_state = Raise e) ∧
  (∀ e,
     combine r.2 = Raise e →
     Store.__init__ (combined_class class_state body combine before) initial_state
       = Raise e).
Proof.
  intros Hbefore. destruct r as [substores sts].
  split_and!.
  - intros initial msg -> Hfield. cbn [Store.__init__].
    unfold combined_store._initialize_state. rewrite for_kwargs_app, Hbefore. simpl.
    by rewrite Hfield.
  - intros body' -> ->. cbn [Store.__init__].
    unfold combined_store._initialize_state. rewrite for_kwargs_app, Hbefore. done.
  - intros initial v e -> Hfield Hnew. cbn [Store.__init__].
    unfold combined_store._initialize_state. rewrite for_kwargs_app, Hbefore. simpl.
    rewrite Hfield. simpl. by rewrite Hnew.
  - intros e -> Hnew. cbn [Store.__init__].
    unfold combined_store._initialize_state. rewrite for_kwargs_app, Hbefore. simpl.
    by rewrite Hnew.
  - intros e Hcombine. cbn [Store.__init__].
    unfold combined_store._initialize_state. rewrite Hbefore. simpl in *.
    by rewrite Hcombine.
Qed.

Lemma forwarded_for_substores action heap items items' heap' :
  forwarded action heap items items' heap' →
  combined_store.for_substores Store.dispatch items action heap =
    (Ok (substates items'), items', heap').
Proof.
  induction 1 as [heap|heap name substore st substore' heap1 items items' heap2 Hd _ IH].
  - done.
  - simpl. rewrite Hd, IH. simpl.
    by rewrite (dispatch_returns_state _ _ _ _ _ _ Hd).
Qed.

Lemma for_substores_app items1 items2 action heap :
  combined_store.for_substores Store.dispatch (items1 ++ items2) action heap =
    match combined_store.for_substores Store.dispatch items1 action heap with
    | (Ok sts1, items1', heap1) =>
        let '(r, items2', heap2) :=
          combined_store.for_substores Store.dispatch items2 action heap1 in
        (sts2 ← r; Ok (sts1 ++ sts2), items1' ++ items2', heap2)
    | (Raise e, items1', heap1) => (Raise e, items1' ++ items2, heap1)
    end.
Proof.
  revert heap. induction items1 as [|[name substore] items1 IH]; intros heap.
  - simpl. destruct (combined_store.for_substores Store.dispatch items2 action heap)
      as [[[sts|e] items2'] heap2]; done.
  - cbn [app combined_store.for_substores].
    destruct (Store.dispatch substore action heap) as [[[st|e] substore'] heap1]; [|done].
    rewrite IH.
    destruct (combined_store.for_substores Store.dispatch items1 action heap1)
      as [[[sts1|e] items1'] heap2]; [|done].
    simpl. destruct (combined_store.for_substores Store.dispatch items2 action heap2)
      as [[[sts2|e] items2'] heap3]; done.
Qed.

(** X9.  When the dispatch into one substore raises, the dispatch
    into the combined store raises the same exception.  The substores
    before it have been dispatched the action and keep what it did,
    the substores after it have not been touched, and the combined
    store keeps the state it had, with its subscriptions not
    notified. *)
Theorem X9_combined_dispatch_substore_raises
    st subs reds combine before name substore after action heap
    before' heap1 e substore' heap2 :
  forwarded action heap before before' heap1 →
  Store.dispatch substore action heap1 = (Raise e, substore', heap2) →
  Store.dispatch (Combined st subs reds combine (before ++ (name, substore) :: after))
      action heap =
    (Raise e,
     Combined st subs reds combine (before' ++ (name, substore') :: after),
     heap2).
Proof.
  intros Hbefore Hd. rewrite dispatch_unfold. simpl.
  rewrite for_substores_app, (forwarded_for_substores _ _ _ _ _ Hbefore).
  cbn [combined_store.for_substores]. by rewrite Hd.
Qed.

(** X10.  When every substore has been dispatched the action and
    [combine_states] then raises, the dispatch into the combined
    store raises the same exception: the substores keep their new
    states, the combined store keeps the state it had, and its
    subscriptions are not notified. *)
Theorem X10_combined_dispatch_combine_raises
    st subs reds combine substores action heap substores' heap1 e :
  forwarded action heap substores substores' heap1 →
  combine (substates substores') = Raise e →
  Store.dispatch (Combined st subs reds combine substores) action heap =
    (Raise e, Combined st subs reds combine substores', heap1).
Proof.
  intros Hfwd Hcombine. rewrite dispatch_unfold. simpl.
  rewrite (forwarded_for_substores _ _ _ _ _ Hfwd). simpl. by rewrite Hcombine.
Qed.
End combined_more.

(** A consumer suspended on an empty queue and woken by two pushes:
    it returns the first notification and leaves a fresh event, not
    set, with the second one pending. *)
Example resumed_read_leaves_a_fresh_event :
  let r := play (H:=types) (Subscription.__init__ EVERY)
             [Pop; Push (H:=types) (Int 1, Increment);
              Push (H:=types) (Int 2, Increment); Pop] in
  r.1 = [(Int 1, Increment)] ∧
  Subscription.pending r.2 = [(Int 2, Increment)] ∧
  _notification_event r.2 = false ∧
  awaiting r.2 = false.
Proof. vm_compute. done. Qed.

(** ** Instances of the further properties *)

Lemma X3_instance :
  last (pushed (H:=types) [Push (H:=types) (Int 1, Increment); Push (H:=types) (Int 2, Increment)])
    = Some (Int 2, Increment).
Proof.
  apply (proj1 (proj2 (proj2 (X3_latest_reads_most_recent (H:=types)
           [Push (H:=types) (Int 1, Increment); Push (H:=types) (Int 2, Increment)])))).
  reflexivity.
Defined.

Lemma X4_instance :
  _notification_event
    (play (H:=types) (Subscription.__init__ EVERY)
       [Pop; Push (H:=types) (Int 1, Increment); Push (H:=types) (Int 2, Decrement)]).2
  = true.
Proof.
  apply (proj1 (X4_no_lost_wake_up (H:=types) EVERY
           [Pop; Push (H:=types) (Int 1, Increment); Push (H:=types) (Int 2, Decrement)])).
  - reflexivity.
  - vm_compute. discriminate.
Defined.

Lemma X5_instance :
  well_formed (Plain (Int 0) [0] (_reducers counter), [Subscription.__init__ LATEST]) ∧
  (let '(sub2, self1, heap1) :=
     Store.subscribe (Plain (Int 0) [0] (_reducers counter)) EVERY
       [Subscription.__init__ LATEST] in
   sub2 ≠ 0 ∧
   state self1 = state (Plain (Int 0) [0] (_reducers counter)) ∧
   heap1 !! 0 = Some (Subscription.__init__ LATEST) ∧
   pending_of sub2 heap1 = Some [] ∧
   ∀ st self2 heap2,
     Store.dispatch self1 Increment heap1 = (Ok st, self2, heap2) →
     heap2 !! 0 = Some (Subscription._notify (Subscription.__init__ LATEST) st Increment) ∧
     pending_of sub2 heap2 = Some [(st, Increment)]).
Proof.
  assert (well_formed (Plain (Int 0) [0] (_reducers counter), [Subscription.__init__ LATEST]))
    as Hwf.
  { split; [apply NoDup_singleton|]. repeat constructor. }
  split; [exact Hwf|].
  refine (X5_subscribers_are_independent (H:=types)
            (Plain (Int 0) [0] (_reducers counter)) [Subscription.__init__ LATEST]
            EVERY Increment 0 (Subscription.__init__ LATEST) Hwf _ _).
  - apply list_elem_of_singleton. reflexivity.
  - reflexivity.
Defined.

Lemma X6_instance :
  well_formed (counter, []) ∧
  _subscriptions (Plain (Int 1) [] (_reducers counter)) = _subscriptions counter ∧
  (0 ∉ all_refs (Plain (Int 1) [] (_reducers counter))) ∧
  ∀ later,
    (dispatch_all (Plain (Int 1) [] (_reducers counter)) later
       (with_subscribe counter LATEST (dispatching [Increment]) []).2).2 !! 0 =
    (with_subscribe counter LATEST (dispatching [Increment]) []).2 !! 0.
Proof.
  assert (well_formed (counter, [])) as Hwf.
  { split; [apply NoDup_nil_2|apply List.Forall_nil]. }
  split; [exact Hwf|].
  refine (X6_scope_exit_detaches (H:=types) counter [] LATEST [Increment]
            (Plain (Int 1) [] (_reducers counter))
            (with_subscribe counter LATEST (dispatching [Increment]) []).2 Hwf _).
  vm_compute. reflexivity.
Defined.

Lemma X7_instance :
  ∃ substores,
    CombinedState_new (substates substores) = Ok (CombinedState (Int 42) (Int 24)) ∧
    Forall2 (λ (item : string * Store) (kw : string * StoreClass),
               item.1 = kw.1 ∧
               ∃ v, getattr (CombinedState (Int 42) (Int 24)) kw.1 = Ok v ∧
                    Store.__init__ kw.2 (Some v) = Ok item.2 ∧
                    ∀ class_state body, kw.2 = plain_class class_state body →
                                        state item.2 = v)
      substores [("counter", CounterStore); ("mirror", MirrorStore)].
Proof.
  assert (Store.__init__ CombinedStore (Some (CombinedState (Int 42) (Int 24))) =
          Ok (Combined (CombinedState (Int 42) (Int 24)) [] [] CombinedState_new
                [("counter", _set_state counter (Int 42));
                 ("mirror", _set_state mirror (Int 24))])) as Hinit.
  { vm_compute. reflexivity. }
  destruct (X7_combined_construction (H:=types) None [] CombinedState_new
              [("counter", CounterStore); ("mirror", MirrorStore)]
              (Some (CombinedState (Int 42) (Int 24))) _ Hinit)
    as (substores & _ & Hcombine & Hall).
  exists substores. split; [exact Hcombine|exact Hall].
Defined.

Lemma X8_instance :
  Store.__init__
    (combined_class None [] CombinedState_new
       ([("counter", CounterStore)] ++ ("mirror", MirrorStore) :: []))
    (Some (_WrongState (Int 42) (Int 24)))
  = Raise (TypeError "mirror").
Proof.
  refine (proj1 (X8_combined_construction_failures (H:=types) None [] CombinedState_new
                   [("counter", CounterStore)] "mirror" MirrorStore []
                   (Some (_WrongState (Int 42) (Int 24)))
                   ([("counter", _set_state counter (Int 42))], [("counter", Int 42)]) _)
            (_WrongState (Int 42) (Int 24)) "mirror" _ _).
  - vm_compute. reflexivity.
  - reflexivity.
  - reflexivity.
Defined.

Lemma X9_instance :
  Store.dispatch
    (Combined (CombinedState (Int 0) (Int 0)) [] [] CombinedState_new
       ([("counter", counter)] ++ ("mirror", Plain (Int 0) [] [([Increment], boom)]) :: []))
    Increment []
  = (Raise (UserError "boom"),
     Combined (CombinedState (Int 0) (Int 0)) [] [] CombinedState_new
       ([("counter", _set_state counter (Int 1))]
          ++ ("mirror", Plain (Int 0) [] [([Increment], boom)]) :: []),
     []).
Proof.
  refine (X9_combined_dispatch_substore_raises (H:=types)
            (CombinedState (Int 0) (Int 0)) [] [] CombinedState_new
            [("counter", counter)] "mirror" (Plain (Int 0) [] [([Increment], boom)]) []
            Increment [] [("counter", _set_state counter (Int 1))] []
            (UserError "boom") (Plain (Int 0) [] [([Increment], boom)]) [] _ _).
  - eapply forwarded_cons; [vm_compute; reflexivity|apply forwarded_nil].
  - vm_compute. reflexivity.
Defined.

Lemma X10_instance :
  Store.dispatch (Combined (Int 0) [] [] CombinedState_new [("total", counter)])
    Increment []
  = (Raise (TypeError "missing or unexpected keyword argument"),
     Combined (Int 0) [] [] CombinedState_new [("total", _set_state counter (Int 1))],
     []).
Proof.
  refine (X10_combined_dispatch_combine_raises (H:=types)
            (Int 0) [] [] CombinedState_new [("total", counter)] Increment []
            [("total", _set_state counter (Int 1))] []
            (TypeError "missing or unexpected keyword argument") _ _).
  - eapply forwarded_cons; [vm_compute; reflexivity|apply forwarded_nil].
  - reflexivity.
Defined.

Lemma X11_instance :
  _reducers (_set_state counter (Int 1)) = _reducers counter ∧
  _subscriptions (_set_state counter (Int 1)) = _subscriptions counter.
Proof.
  assert (Store.dispatch counter Increment [] = (Ok (Int 1), _set_state counter (Int 1), []))
    as Hd.
  { vm_compute. reflexivity. }
  pose proof (X11_dispatch_changes_only_states (H:=types) counter Increment []
                (Ok (Int 1)) (_set_state counter (Int 1)) [] Hd) as Hframe.
  split; [exact (proj1 Hframe)|exact (proj1 (proj2 Hframe))].
Defined.

Lemma X12_instance :
  (dispatch_all counter [Increment; Decrement] [Subscription.__init__ EVERY]).2 !! 0
  = [Subscription.__init__ EVERY] !! 0.
Proof.
  apply (X12_dispatch_notifies_only_its_subscriptions (H:=types)).
  apply not_elem_of_nil.
Defined.

Lemma X13_instance :
  ([] : Heap) = [] ∧
  ∃ action_type (reducer : Method),
    (action_type, reducer) ∈ [([Increment], add 1); ([Increment], boom)] ∧
    isinstance Increment action_type = true ∧
    reducer (state (Plain (Int 1) [] [([Increment], add 1); ([Increment], boom)])) Increment
      = Raise (UserError "boom").
Proof.
  apply (proj1 (X13_dispatch_raises_what_a_handler_raises (H:=types)
                  (Int 0) [] [([Increment], add 1); ([Increment], boom)] Increment [])
           (UserError "boom")).
  vm_compute. reflexivity.
Defined.
